(** * now-playing-api: reconciliation, liveness inference and cache policy

    A shallow embedding of [src/index.ts], a Cloudflare Worker that polls
    Spotify and Apple Music and answers with one "now playing" record.

    The worker is asynchronous JavaScript.  It is embedded as follows:
    - every [async] function is a computation in a state-and-exception
      monad [M] over a [World] (the two KV namespaces, the counters of the
      clock and of the token endpoint, and the trace of outside calls);
    - everything the worker cannot decide by itself (HTTP answers, the
      clock, the JWT library, KV availability) is read from an [Oracle];
    - JSON bodies are taken typed as the services document them; the
      places where the code dereferences a value that a service may leave
      out ([item], [images[0]], [items[0]], [data[0]]) raise [TypeError];
    - numbers are integers ([Z]); the only [NaN] the code can meet comes
      from an invalid [Date], which [JS.number] keeps. *)

From Stdlib Require Import ZArith String Ascii List Lia Bool DecimalString.
From stdpp Require Import gmap strings.

Open Scope string_scope.
Open Scope list_scope.
Open Scope Z_scope.

(* ===================================================================== *)
(** ** JavaScript values used by the worker *)
(* ===================================================================== *)

(** Exceptions, and the outcome of evaluating something that may throw. *)
Inductive Exn : Type :=
  | TypeError | RangeError | SyntaxError | NetworkError | KVError | JoseError.

Inductive Res (A : Type) : Type :=
  | Ok (a : A)
  | Throw (e : Exn).
Arguments Ok {A} a.
Arguments Throw {A} e.

Module JS.

(** A number that is an integer or [NaN]. *)
Inductive number : Type :=
  | NaN
  | Num (z : Z).

(** [x >= y] and [x < y]: every comparison with [NaN] is false. *)
Definition geb (x y : number) : bool :=
  match x, y with
  | Num a, Num b => b <=? a
  | _, _ => false
  end.

Definition ltb (x y : number) : bool :=
  match x, y with
  | Num a, Num b => a <? b
  | _, _ => false
  end.

(** Truthiness of a string, and of an optional ([T | undefined]) string. *)
Definition truthy (s : string) : bool := negb (String.eqb s "").

Definition truthy_opt (o : option string) : bool :=
  match o with
  | Some s => truthy s
  | None => false
  end.

(** [`${n}`] for an integer. *)
Definition string_of_Z (n : Z) : string := NilEmpty.string_of_int (Z.to_int n).

(** [s.replace(pat, rep)] with string arguments: the first occurrence of
    [pat] only ([rep] holds no [$] pattern in this program). *)
Fixpoint drop (n : nat) (s : string) : string :=
  match n, s with
  | S n', String _ r => drop n' r
  | _, _ => s
  end.

Fixpoint replace (pat rep s : string) : string :=
  if String.prefix pat s then rep +:+ drop (String.length pat) s
  else match s with
       | EmptyString => EmptyString
       | String c r => String c (replace pat rep r)
       end.

(** [names.join(', ')]. *)
Definition join (sep : string) (l : list string) : string := String.concat sep l.

End JS.

(* ===================================================================== *)
(** ** Date: time values, [toISOString] and the date-time string format *)
(* ===================================================================== *)

Module Date.
Import JS.

Definition msPerDay : Z := 86400000.
Definition maxTime : Z := 8640000000000000.

(** A time value is an integer number of milliseconds since the epoch,
    at most 8.64e15 in absolute value. *)
Definition valid_time (t : Z) : Prop := - maxTime <= t <= maxTime.

Definition TimeClip (t : Z) : number :=
  if (- maxTime <=? t) && (t <=? maxTime) then Num t else NaN.

(** Day number (days since 1970-01-01) to year, month, day and back, in
    the proleptic Gregorian calendar. *)
Definition civil_from_days (z : Z) : Z * Z * Z :=
  let z := z + 719468 in
  let era := z / 146097 in
  let doe := z - era * 146097 in
  let yoe := (doe - doe / 1460 + doe / 36524 - doe / 146096) / 365 in
  let doy := doe - (365 * yoe + yoe / 4 - yoe / 100) in
  let mp := (5 * doy + 2) / 153 in
  let d := doy - (153 * mp + 2) / 5 + 1 in
  let m := if mp <? 10 then mp + 3 else mp - 9 in
  let y := yoe + era * 400 in
  (if m <=? 2 then y + 1 else y, m, d).

Definition days_from_civil (y m d : Z) : Z :=
  let y := if m <=? 2 then y - 1 else y in
  let era := y / 400 in
  let yoe := y - era * 400 in
  let doy := (153 * (if 2 <? m then m - 3 else m + 9) + 2) / 5 + d - 1 in
  let doe := yoe * 365 + yoe / 4 - yoe / 100 + doy in
  era * 146097 + doe - 719468.

(** Decimal digits, zero padded to a width. *)
Definition digit (n : Z) : ascii := ascii_of_nat (48 + Z.to_nat (n mod 10)).

Fixpoint pad_acc (width : nat) (n : Z) (acc : string) : string :=
  match width with
  | O => acc
  | S w => pad_acc w (n / 10) (String (digit n) acc)
  end.

Definition pad (width : nat) (n : Z) : string := pad_acc width n "".

Definition year_string (y : Z) : string :=
  if (0 <=? y) && (y <=? 9999) then pad 4 y
  else (if y <? 0 then "-" else "+") +:+ pad 6 (Z.abs y).

(** The text [toISOString] prints for the time value [t]:
    YYYY-MM-DDTHH:mm:ss.sssZ, the year widened to six signed digits
    outside 0..9999. *)
Definition iso (t : Z) : string :=
  let '(y, m, d) := civil_from_days (t / msPerDay) in
  let r := t mod msPerDay in
  year_string y +:+ "-" +:+ pad 2 m +:+ "-" +:+ pad 2 d +:+ "T" +:+
  pad 2 (r / 3600000) +:+ ":" +:+ pad 2 (r / 60000 mod 60) +:+ ":" +:+
  pad 2 (r / 1000 mod 60) +:+ "." +:+ pad 3 (r mod 1000) +:+ "Z".

(** [d.toISOString()]: a [RangeError] on an invalid date. *)
Definition toISOString (d : number) : Res string :=
  match d with
  | NaN => Throw RangeError
  | Num t => Ok (iso t)
  end.

(** *** Parsing

    [new Date(s)] for a string.  ECMA-262 fixes the outcome for its
    date-time string format only: YYYY, YYYY-MM or YYYY-MM-DD (the year
    also as six signed digits), then optionally THH:mm, THH:mm:ss or
    THH:mm:ss.sss, then optionally Z or a signed HH:mm offset.  What an
    engine makes of other text is its own affair, and V8 reads a good
    deal more (a fraction of one or two digits, for one); here such text
    gives [NaN], so only a time value that [parse] returns speaks for
    the engine, a [NaN] does not.  A form without offset is read in local
    time, which is UTC in a Worker.  As in V8, a day up to 31 is accepted
    in every month and carries over. *)
Definition digit_val (c : ascii) : option Z :=
  let n := Z.of_nat (nat_of_ascii c) in
  if (48 <=? n) && (n <=? 57) then Some (n - 48) else None.

Fixpoint digits (k : nat) (acc : Z) (l : list ascii) : option (Z * list ascii) :=
  match k with
  | O => Some (acc, l)
  | S k' =>
      match l with
      | [] => None
      | c :: r =>
          match digit_val c with
          | Some v => digits k' (10 * acc + v) r
          | None => None
          end
      end
  end.

Definition parse_year (l : list ascii) : option (Z * list ascii) :=
  match l with
  | "+"%char :: r => digits 6 0 r
  | "-"%char :: r =>
      match digits 6 0 r with
      | Some (y, r') => if y =? 0 then None else Some (- y, r')
      | None => None
      end
  | _ => digits 4 0 l
  end.

(** Year, month and day, the latter two defaulting to 1. *)
Definition parse_date (l : list ascii) : option (Z * Z * Z * list ascii) :=
  match parse_year l with
  | None => None
  | Some (y, r) =>
      match r with
      | "-"%char :: r1 =>
          match digits 2 0 r1 with
          | None => None
          | Some (mo, r2) =>
              match r2 with
              | "-"%char :: r3 =>
                  match digits 2 0 r3 with
                  | None => None
                  | Some (d, r4) => Some (y, mo, d, r4)
                  end
              | _ => Some (y, mo, 1, r2)
              end
          end
      | _ => Some (y, 1, 1, r)
      end
  end.

(** The offset in minutes east of UTC that ends a date-time. *)
Definition parse_offset (l : list ascii) : option Z :=
  match l with
  | [] => Some 0
  | ["Z"%char] => Some 0
  | sg :: r =>
      match digits 2 0 r with
      | Some (h, ":"%char :: r1) =>
          match digits 2 0 r1 with
          | Some (mi, []) =>
              if (h <=? 23) && (mi <=? 59) then
                if Ascii.eqb sg "+" then Some (h * 60 + mi)
                else if Ascii.eqb sg "-" then Some (- (h * 60 + mi))
                else None
              else None
          | _ => None
          end
      | _ => None
      end
  end.

(** Milliseconds within the day, and the offset, of what follows [T]. *)
Definition parse_time (l : list ascii) : option (Z * Z) :=
  match digits 2 0 l with
  | Some (h, ":"%char :: r1) =>
      match digits 2 0 r1 with
      | None => None
      | Some (mi, r2) =>
          let '(s, ms, r5) :=
            match r2 with
            | ":"%char :: r3 =>
                match digits 2 0 r3 with
                | None => (-1, 0, r2)
                | Some (s, r4) =>
                    match r4 with
                    | "."%char :: r5 =>
                        match digits 3 0 r5 with
                        | None => (-1, 0, r4)
                        | Some (ms, r6) => (s, ms, r6)
                        end
                    | _ => (s, 0, r4)
                    end
                end
            | _ => (0, 0, r2)
            end in
          match parse_offset r5 with
          | None => None
          | Some off =>
              if (0 <=? s) && (s <=? 59) && (mi <=? 59) &&
                 ((h <=? 23) || ((h =? 24) && (mi =? 0) && (s =? 0) && (ms =? 0)))
              then Some (h * 3600000 + mi * 60000 + s * 1000 + ms, off)
              else None
          end
      end
  | _ => None
  end.

Definition parse_chars (l : list ascii) : number :=
  match parse_date l with
  | None => NaN
  | Some (y, mo, d, r) =>
      if (1 <=? mo) && (mo <=? 12) && (1 <=? d) && (d <=? 31) then
        let day := days_from_civil y mo 1 + d - 1 in
        match r with
        | [] => TimeClip (day * msPerDay)
        | "T"%char :: r' =>
            match parse_time r' with
            | Some (ms, off) => TimeClip (day * msPerDay + ms - off * 60000)
            | None => NaN
            end
        | _ => NaN
        end
      else NaN
  end.

(** [new Date(s)], as its time value. *)
Definition parse (s : string) : number := parse_chars (list_ascii_of_string s).

(** [new Date(n)] for a number, as its time value. *)
Definition of_number (n : Z) : number := TimeClip n.

End Date.

(* ===================================================================== *)
(** ** The worker's data *)
(* ===================================================================== *)

(** API endpoints. *)
Definition SPOTIFY_NOW_PLAYING_ENDPOINT : string :=
  "https://api.spotify.com/v1/me/player/currently-playing".
Definition SPOTIFY_RECENT_ENDPOINT : string :=
  "https://api.spotify.com/v1/me/player/recently-played".
Definition SPOTIFY_TOKEN_ENDPOINT : string := "https://accounts.spotify.com/api/token".
Definition APPLE_RECENTLY_PLAYED_ENDPOINT : string :=
  "https://api.music.apple.com/v1/me/recent/played/tracks?limit=1".

(** Cache configuration, in seconds. *)
Definition DEFAULT_CACHE_TTL : Z := 120.
Definition MAX_CACHE_TTL : Z := 600.

Definition HTTP_NO_CONTENT : Z := 204.

Definition ALBUM_IMAGE_WIDTH : string := "500".
Definition ALBUM_IMAGE_HEIGHT : string := "500".

Definition NOW_PLAYING_CACHE_KEY : string := "now_playing_result".
Definition APPLE_SONG_CACHE_KEY : string := "last_apple_song".

Definition NO_CACHE_VALUE : string := "true".

(** [interface ApiResponse]: the fields marked [?] are optional. *)
Record ApiResponse : Type := mkApiResponse {
  success : bool;
  isPlaying : bool;
  timeStamp : string;
  source : option string;
  duration : option Z;
  title : option string;
  artist : option string;
  album : option string;
  albumImageUrl : option string;
  songUrl : option string;
  error : option string
}.

(** [interface AppleCacheState]. *)
Record AppleCacheState : Type := mkAppleCacheState {
  songId : string;
  cachedAt : Z
}.

(** The secrets of [interface Env]; its two KV namespaces are mutable and
    live in the [World]. *)
Record Env : Type := mkEnv {
  SPOTIFY_CLIENT_ID : string;
  SPOTIFY_CLIENT_SECRET : string;
  SPOTIFY_REFRESH_TOKEN : string;
  APPLE_TEAM_ID : string;
  APPLE_KEY_ID : string;
  APPLE_PRIVATE_KEY : string;
  APPLE_MUSIC_USER_TOKEN : string
}.

(** The JSON the services answer with, as far as the worker reads it. *)
Module Spotify.
Record Track : Type := mkTrack {
  name : string;
  duration_ms : Z;
  artists : list string;       (* the [name] of each artist *)
  album_name : string;
  album_images : list string;  (* the [url] of each image *)
  external_url : string        (* [external_urls.spotify] *)
}.

(** [item] is [null] while an advertisement or an unknown item plays. *)
Record CurrentlyPlaying : Type := mkCurrentlyPlaying {
  timestamp : Z;
  is_playing : bool;
  item : option Track
}.

Record PlayHistory : Type := mkPlayHistory {
  played_at : string;
  track : Track
}.

Record RecentlyPlayed : Type := mkRecentlyPlayed { items : list PlayHistory }.

Record Token : Type := mkToken { access_token : option string }.
End Spotify.

Module Apple.
Record Song : Type := mkSong {
  id : string;
  durationInMillis : Z;
  name : string;
  artistName : string;
  albumName : string;
  artwork_url : string;
  url : string
}.

Record Recent : Type := mkRecent { data : list Song }.
End Apple.

(** What [fetch(url)] gives: a rejected promise, or a [Response] whose
    [json()] either yields a body or throws. *)
Record Response (B : Type) : Type := mkResponse {
  status : Z;
  statusText : string;
  has_body : bool;
  json_body : option B
}.
Arguments mkResponse {B}.
Arguments status {B}.
Arguments statusText {B}.
Arguments has_body {B}.
Arguments json_body {B}.

Definition ok {B} (r : Response B) : bool := (200 <=? status r) && (status r <=? 299).

Inductive Fetched (B : Type) : Type :=
  | Rejected
  | Resolved (r : Response B).
Arguments Rejected {B}.
Arguments Resolved {B} r.

(** Everything outside the worker, fixed for one run.  The clock is read
    by index: the [n]-th reading of [Date.now()] or [new Date()] is
    [clock n], so readings taken at different points may differ.  The
    token endpoint is asked up to twice and is indexed likewise. *)
Record Oracle : Type := mkOracle {
  clock : nat -> Z;
  token_endpoint : nat -> Fetched Spotify.Token;
  now_playing_endpoint : Fetched Spotify.CurrentlyPlaying;
  recently_played_endpoint : Fetched Spotify.RecentlyPlayed;
  jose_importPKCS8 : bool;         (* [false]: the key is refused *)
  jose_sign : option string;       (* [None]: signing rejects *)
  apple_endpoint : Fetched Apple.Recent;
  state_get_ok : bool;
  state_put_ok : bool;
  result_get_ok : bool;
  result_put_ok : bool
}.

(** Calls that leave the worker. *)
Inductive Event : Type :=
  | Fetch (url : string)
  | ResultGet (key : string)
  | ResultDelete (key : string)
  | ResultPut (key : string) (value : ApiResponse) (expirationTtl : Z)
  | StateGet (key : string)
  | StatePut (key : string) (value : AppleCacheState).

Record World : Type := mkWorld {
  RESULT_CACHE : gmap string ApiResponse;
  APPLE_STATE_CACHE : gmap string AppleCacheState;
  ticks : nat;             (* clock readings taken so far *)
  token_requests : nat;    (* requests sent to the token endpoint so far *)
  trace : list Event
}.

Definition set_RESULT_CACHE (f : gmap string ApiResponse -> gmap string ApiResponse)
    (w : World) : World :=
  mkWorld (f (RESULT_CACHE w)) (APPLE_STATE_CACHE w) (ticks w) (token_requests w) (trace w).

Definition set_APPLE_STATE_CACHE
    (f : gmap string AppleCacheState -> gmap string AppleCacheState) (w : World) : World :=
  mkWorld (RESULT_CACHE w) (f (APPLE_STATE_CACHE w)) (ticks w) (token_requests w) (trace w).

Definition tick (w : World) : World :=
  mkWorld (RESULT_CACHE w) (APPLE_STATE_CACHE w) (S (ticks w)) (token_requests w) (trace w).

Definition count_token_request (w : World) : World :=
  mkWorld (RESULT_CACHE w) (APPLE_STATE_CACHE w) (ticks w) (S (token_requests w)) (trace w).

Definition record (e : Event) (w : World) : World :=
  mkWorld (RESULT_CACHE w) (APPLE_STATE_CACHE w) (ticks w) (token_requests w)
          (trace w ++ [e]).

(* ===================================================================== *)
(** ** Computations *)
(* ===================================================================== *)

(** An [async] function body: it reads the oracle, changes the world and
    returns or throws.  The world it leaves behind is kept on a throw. *)
Definition M (A : Type) : Type := Oracle -> World -> Res A * World.

Definition ret {A} (a : A) : M A := fun _ w => (Ok a, w).

Definition throw {A} (e : Exn) : M A := fun _ w => (Throw e, w).

Definition bind {A B} (m : M A) (k : A -> M B) : M B :=
  fun o w =>
    match m o w with
    | (Ok a, w') => k a o w'
    | (Throw e, w') => (Throw e, w')
    end.

Notation "'let*' x ':=' m 'in' k" := (bind m (fun x => k))
  (at level 10, x pattern, m at level 200, k at level 200).

(** [try { m } catch (error) { h }] *)
Definition try_catch {A} (m : M A) (h : Exn -> M A) : M A :=
  fun o w =>
    match m o w with
    | (Ok a, w') => (Ok a, w')
    | (Throw e, w') => h e o w'
    end.

Definition lift {A} (r : Res A) : M A := fun _ w => (r, w).

Definition ask {A} (f : Oracle -> A) : M A := fun o w => (Ok (f o), w).

Definition update (f : World -> World) : M unit := fun _ w => (Ok tt, f w).

(** [await Promise.all([ma, mb])].  Both computations are started and the
    result is rejected when either is.  The runtime alternates between
    the two at their [await]s; here [ma] runs to its end before [mb]
    starts, which is one of its schedules.  The order in which the events
    and the clock readings of the two alternate, and which of two
    rejections is the one reported, are particular to this schedule. *)
Definition Promise_all {A B} (ma : M A) (mb : M B) : M (A * B) :=
  fun o w =>
    let (ra, w1) := ma o w in
    let (rb, w2) := mb o w1 in
    match ra, rb with
    | Ok a, Ok b => (Ok (a, b), w2)
    | Throw e, _ => (Throw e, w2)
    | Ok _, Throw e => (Throw e, w2)
    end.

(** [Date.now()]. *)
Definition Date_now : M Z :=
  fun o w => (Ok (clock o (ticks w)), tick w).

(** [new Date().toISOString()]: the current time is always a valid date. *)
Definition new_Date_toISOString : M string :=
  let* now := Date_now in lift (Date.toISOString (JS.Num now)).

(** [fetch(url, ...)] of the runtime, and [response.json()]. *)
Definition global_fetch {B} (url : string) (answer : Fetched B) : M (Response B) :=
  let* _ := update (record (Fetch url)) in
  match answer with
  | Rejected => throw NetworkError
  | Resolved r => ret r
  end.

Definition json {B} (response : Response B) : M B :=
  match json_body response with
  | Some b => ret b
  | None => throw SyntaxError
  end.

(** [l[0].f]: reading a property of [undefined] is a [TypeError]. *)
Definition first {A} (l : list A) : M A :=
  match l with
  | x :: _ => ret x
  | [] => throw TypeError
  end.

(** [o.f] for an [o] that may be [null]. *)
Definition deref {A} (o : option A) : M A :=
  match o with
  | Some x => ret x
  | None => throw TypeError
  end.

(** The KV namespaces.  [get] is called with [{ type: 'json' }]; the
    stored text is what the worker itself wrote, so it is kept decoded. *)
Definition APPLE_STATE_CACHE_get (key : string) : M (option AppleCacheState) :=
  fun o w =>
    let w' := record (StateGet key) w in
    if state_get_ok o then (Ok (APPLE_STATE_CACHE w !! key), w') else (Throw KVError, w').

Definition APPLE_STATE_CACHE_put (key : string) (value : AppleCacheState) : M unit :=
  fun o w =>
    let w' := record (StatePut key value) w in
    if state_put_ok o then (Ok tt, set_APPLE_STATE_CACHE (insert key value) w')
    else (Throw KVError, w').

Definition RESULT_CACHE_get (key : string) : M (option ApiResponse) :=
  fun o w =>
    let w' := record (ResultGet key) w in
    if result_get_ok o then (Ok (RESULT_CACHE w !! key), w') else (Throw KVError, w').

(** [env.RESULT_CACHE.delete(key)], not awaited: the call is issued at
    once.  Here it also takes effect at once and does not fail, neither
    of which the runtime promises. *)
Definition RESULT_CACHE_delete (key : string) : M unit :=
  update (fun w => set_RESULT_CACHE (delete key) (record (ResultDelete key) w)).

(** [ctx.waitUntil(env.RESULT_CACHE.put(key, value, { expirationTtl }))]:
    the write is issued at once and nobody waits for it; when it fails
    the response is not affected.  The TTL is recorded with the event;
    that the entry goes away once it has run out is not modelled, so a
    world covers a request and what follows while the entry lasts. *)
Definition waitUntil_RESULT_CACHE_put (key : string) (value : ApiResponse) (ttl : Z) : M unit :=
  fun o w =>
    let w' := record (ResultPut key value ttl) w in
    (Ok tt, if result_put_ok o then set_RESULT_CACHE (insert key value) w' else w').

(* ===================================================================== *)
(** ** The worker *)
(* ===================================================================== *)

(** The object literal every failure path returns:
    [{ success: false, isPlaying: false, timeStamp, error }]. *)
Definition failure (timeStamp error : string) : ApiResponse :=
  {| success := false; isPlaying := false; timeStamp := timeStamp;
     source := None; duration := None; title := None; artist := None;
     album := None; albumImageUrl := None; songUrl := None;
     error := Some error |}.

(** [return { success: false, isPlaying: false,
             timeStamp: new Date().toISOString(), error }] *)
Definition failed (error : string) : M ApiResponse :=
  let* now := new_Date_toISOString in
  ret (failure now error).

(** *** Spotify *)

(** Uses the refresh token to get a short-lived access token. *)
Definition getAccessToken (env : Env) : M (option string) :=
  let* n := (fun _ w => (Ok (token_requests w), count_token_request w)) in
  let* answer := ask (fun o => token_endpoint o n) in
  let* response := global_fetch SPOTIFY_TOKEN_ENDPOINT answer in
  let* data := json response in
  ret (Spotify.access_token data).

Definition spotify_status_error {B} (response : Response B) : string :=
  "Failed to fetch from Spotify. Status: " +:+ JS.string_of_Z (status response) +:+
  " " +:+ statusText response.

(** The object both Spotify queries build from a track. *)
Definition spotify_song (timeStamp : string) (isPlaying : bool) (t : Spotify.Track)
    : M ApiResponse :=
  let artist := JS.join ", " (Spotify.artists t) in
  let* image := first (Spotify.album_images t) in
  ret {| success := true; isPlaying := isPlaying; timeStamp := timeStamp;
         source := Some "Spotify"; duration := Some (Spotify.duration_ms t);
         title := Some (Spotify.name t); artist := Some artist;
         album := Some (Spotify.album_name t); albumImageUrl := Some image;
         songUrl := Some (Spotify.external_url t); error := None |}.

(** Fetches the currently playing track. *)
Definition getNowPlaying (accessToken : string) : M ApiResponse :=
  let* answer := ask now_playing_endpoint in
  let* response := global_fetch SPOTIFY_NOW_PLAYING_ENDPOINT answer in
  if status response =? HTTP_NO_CONTENT then
    let* epoch := lift (Date.toISOString (Date.of_number 0)) in
    ret {| success := true; isPlaying := false; timeStamp := epoch;
           source := None; duration := None; title := None; artist := None;
           album := None; albumImageUrl := None; songUrl := None; error := None |}
  else if negb (ok response) then
    failed (spotify_status_error response)
  else
    let* song := json response in
    let* item := deref (Spotify.item song) in
    let* timeStamp := lift (Date.toISOString (Date.of_number (Spotify.timestamp song))) in
    spotify_song timeStamp (Spotify.is_playing song) item.

Definition getSpotifyRecentlyPlayed (accessToken : string) : M ApiResponse :=
  let* answer := ask recently_played_endpoint in
  let* response := global_fetch SPOTIFY_RECENT_ENDPOINT answer in
  if negb (ok response) then
    failed (spotify_status_error response)
  else
    let* songs := json response in
    let* mostRecent := first (Spotify.items songs) in
    let* timeStamp := lift (Date.toISOString (Date.parse (Spotify.played_at mostRecent))) in
    spotify_song timeStamp false (Spotify.track mostRecent).

Definition getSpotifyData (env : Env) : M ApiResponse :=
  let* accessToken := getAccessToken env in
  if negb (JS.truthy_opt accessToken) then
    failed "Could not get access token for Spotify."
  else
    let* spotifynowPlaying := getNowPlaying (default "" accessToken) in
    if JS.truthy_opt (title spotifynowPlaying) then ret spotifynowPlaying
    else
      let* newAccessToken := getAccessToken env in
      if negb (JS.truthy_opt newAccessToken) then
        failed "Could not get access token for Spotify."
      else
        let* recentlyPlayed := getSpotifyRecentlyPlayed (default "" newAccessToken) in
        ret recentlyPlayed.

(** *** Apple Music *)

(** Generates a short-lived developer token.  The [try] covers the key
    import; [return jwt.sign(privateKey)] hands the promise over without
    awaiting it, so a rejected signature is not caught here. *)
Definition getAppleDeveloperToken (env : Env) : M (option string) :=
  let* signing :=
    try_catch
      (let* imported := ask jose_importPKCS8 in
       if imported then let* signed := ask jose_sign in ret (Some signed)
       else throw JoseError)
      (fun _ => ret None) in
  match signing with
  | None => ret None
  | Some (Some jwt) => ret (Some jwt)
  | Some None => throw JoseError
  end.

Definition formatAppleSong (song : Apple.Song) (isLive : bool) (timestamp : Z)
    : Res ApiResponse :=
  match Date.toISOString (Date.of_number timestamp) with
  | Throw e => Throw e
  | Ok timeStamp =>
      Ok {| success := true; isPlaying := isLive; timeStamp := timeStamp;
            source := Some "Apple Music";
            duration := Some (Apple.durationInMillis song);
            title := Some (Apple.name song);
            artist := Some (Apple.artistName song);
            album := Some (Apple.albumName song);
            albumImageUrl :=
              Some (JS.replace "{h}" ALBUM_IMAGE_HEIGHT
                      (JS.replace "{w}" ALBUM_IMAGE_WIDTH (Apple.artwork_url song)));
            songUrl := Some (Apple.url song); error := None |}
  end.

Definition getAppleMusicData (env : Env) (musicUserToken : string) : M ApiResponse :=
  let* developerToken := getAppleDeveloperToken env in
  if negb (JS.truthy_opt developerToken) || negb (JS.truthy musicUserToken) then
    failed "Could not generate Apple Developer Token."
  else
    try_catch
      (let* answer := ask apple_endpoint in
       let* response := global_fetch APPLE_RECENTLY_PLAYED_ENDPOINT answer in
       if (HTTP_NO_CONTENT <? status response) || negb (has_body response) then
         failed ("Failed to fetch from Apple Music. Status: " +:+
                 JS.string_of_Z (status response) +:+ " " +:+ statusText response)
       else
         let* body := json response in
         let* lastSong := first (Apple.data body) in
         let songId' := Apple.id lastSong in
         let durationInMillis := Apple.durationInMillis lastSong in
         let* cachedState := APPLE_STATE_CACHE_get APPLE_SONG_CACHE_KEY in
         let* now := Date_now in
         let oneSongAgo := now - durationInMillis in
         let new_song :=
           let* now1 := Date_now in
           let newState := {| songId := songId'; cachedAt := now1 |} in
           let* _ := APPLE_STATE_CACHE_put APPLE_SONG_CACHE_KEY newState in
           let* now2 := Date_now in
           lift (formatAppleSong lastSong true now2) in
         match cachedState with
         | Some cached =>
             if String.eqb (songId cached) songId' then
               if cachedAt cached >? oneSongAgo then
                 lift (formatAppleSong lastSong true (cachedAt cached))
               else
                 let* logged := Date_now in
                 lift (formatAppleSong lastSong false (cachedAt cached))
             else new_song
         | None => new_song
         end)
      (fun _ => failed "Failed to fetch from Apple Music. Is the User Token valid?").

(** *** The request handler *)

(** The value of the [noCache] query parameter, if there is one. *)
Record Request : Type := mkRequest { noCache : option string }.

Record Reply : Type := mkReply {
  body : ApiResponse;
  X_Cache_Status : string
}.

(** [spotify.timeStamp ? new Date(spotify.timeStamp).getTime() : 0] *)
Definition getTime (timeStamp : string) : JS.number :=
  if JS.truthy timeStamp then Date.parse timeStamp else JS.Num 0.

(** The choice of [responseData] among the two adapters' answers. *)
Definition responseData (spotify apple : ApiResponse) : ApiResponse :=
  if isPlaying spotify then spotify
  else if isPlaying apple then apple
  else
    let spotifyTime := getTime (timeStamp spotify) in
    let appleTime := getTime (timeStamp apple) in
    if JS.geb spotifyTime appleTime then spotify else apple.

(** The [expirationTtl] of the cache write. *)
Definition expirationTtl (responseData : ApiResponse) : Z :=
  match duration responseData with
  | Some d => Z.min (d / 1000) MAX_CACHE_TTL
  | None => DEFAULT_CACHE_TTL
  end.

Definition fetch (request : Request) (env : Env) : M Reply :=
  let* cachedResult :=
    match noCache request with
    | Some v =>
        if String.eqb v NO_CACHE_VALUE then
          let* _ := RESULT_CACHE_delete NOW_PLAYING_CACHE_KEY in ret None
        else RESULT_CACHE_get NOW_PLAYING_CACHE_KEY
    | None => RESULT_CACHE_get NOW_PLAYING_CACHE_KEY
    end in
  match cachedResult with
  | Some cached => ret {| body := cached; X_Cache_Status := "HIT" |}
  | None =>
      let appleMusicUserToken := APPLE_MUSIC_USER_TOKEN env in
      let* both := Promise_all (getSpotifyData env)
                               (getAppleMusicData env appleMusicUserToken) in
      let chosen := responseData (fst both) (snd both) in
      let* _ :=
        if success chosen then
          waitUntil_RESULT_CACHE_put NOW_PLAYING_CACHE_KEY chosen (expirationTtl chosen)
        else ret tt in
      ret {| body := chosen; X_Cache_Status := "MISS" |}
  end.

(* ===================================================================== *)
(** ** Vocabulary of the statements *)
(* ===================================================================== *)

(** Apple Music answers with [song] as the most recent track, both tokens
    are there and the state cache can be read: the run of
    [getAppleMusicData] reaches the liveness decision for [song]. *)
Definition apple_serves (o : Oracle) (musicUserToken : string) (song : Apple.Song) : Prop :=
  jose_importPKCS8 o = true /\
  (exists jwt, jose_sign o = Some jwt /\ JS.truthy jwt = true) /\
  JS.truthy musicUserToken = true /\
  (exists response rest,
      apple_endpoint o = Resolved response /\
      status response <= HTTP_NO_CONTENT /\
      has_body response = true /\
      json_body response = Some (Apple.mkRecent (song :: rest))) /\
  state_get_ok o = true.

(** The writes to the two KV namespaces that a trace records. *)
Fixpoint state_writes (t : list Event) : list (string * AppleCacheState) :=
  match t with
  | [] => []
  | StatePut key value :: t' => (key, value) :: state_writes t'
  | _ :: t' => state_writes t'
  end.

Fixpoint cache_writes (t : list Event) : list (string * ApiResponse * Z) :=
  match t with
  | [] => []
  | ResultPut key value ttl :: t' => (key, value, ttl) :: cache_writes t'
  | _ :: t' => cache_writes t'
  end.

(** The URLs a trace asked for. *)
Fixpoint fetched (t : list Event) : list string :=
  match t with
  | [] => []
  | Fetch url :: t' => url :: fetched t'
  | _ :: t' => fetched t'
  end.

(** No descriptive field is set. *)
Definition bare (r : ApiResponse) : Prop :=
  source r = None /\ duration r = None /\ title r = None /\ artist r = None /\
  album r = None /\ albumImageUrl r = None /\ songUrl r = None.

(** Postconditions and frame conditions of computations.  [ensures m Q]:
    whenever [m] returns, [Q] holds of the oracle, the value and the world
    left behind.  [preserves f m]: [m] leaves the view [f] of the world as
    it was, also when it throws.  [returns m]: [m] never throws. *)
Definition ensures {A} (m : M A) (Q : Oracle -> A -> World -> Prop) : Prop :=
  forall o w a w', m o w = (Ok a, w') -> Q o a w'.

Definition preserves {A X} (f : World -> X) (m : M A) : Prop :=
  forall o w, f (snd (m o w)) = f w.

Definition returns {A} (m : M A) : Prop :=
  forall o w, exists a w', m o w = (Ok a, w').

(** The view of the world that the adapters leave alone: the result cache
    and the writes to it. *)
Definition cache_view (w : World) : gmap string ApiResponse * list (string * ApiResponse * Z) :=
  (RESULT_CACHE w, cache_writes (trace w)).

(** Events other than a write to the result cache. *)
Definition quiet (e : Event) : Prop :=
  match e with ResultPut _ _ _ => False | _ => True end.

(** The token endpoint's [n]-th answer carries a usable access token, or
    carries none (no [access_token], or an empty one). *)
Definition token_served (o : Oracle) (n : nat) (token : string) : Prop :=
  exists response,
    token_endpoint o n = Resolved response /\
    json_body response = Some (Spotify.mkToken (Some token)) /\
    JS.truthy token = true.

Definition token_denied (o : Oracle) (n : nat) : Prop :=
  exists response token,
    token_endpoint o n = Resolved response /\
    json_body response = Some (Spotify.mkToken token) /\
    JS.truthy_opt token = false.

(** The world once [getAccessToken] has asked the token endpoint. *)
Definition token_asked (w : World) : World :=
  record (Fetch SPOTIFY_TOKEN_ENDPOINT) (count_token_request w).

(** The second half of [getSpotifyData]: what it does once the
    now-playing answer has no title. *)
Definition recently_played_fallback (env : Env) : M ApiResponse :=
  let* newAccessToken := getAccessToken env in
  if negb (JS.truthy_opt newAccessToken) then
    failed "Could not get access token for Spotify."
  else
    let* recentlyPlayed := getSpotifyRecentlyPlayed (default "" newAccessToken) in
    ret recentlyPlayed.

(** [{ success: true, isPlaying: false, timeStamp: new Date(0).toISOString() }] *)
Definition nothing_playing : ApiResponse :=
  {| success := true; isPlaying := false; timeStamp := "1970-01-01T00:00:00.000Z";
     source := None; duration := None; title := None; artist := None;
     album := None; albumImageUrl := None; songUrl := None; error := None |}.

(** The clock reading taken last before the world [w]. *)
Definition last_reading (o : Oracle) (w : World) : Z := clock o (Nat.pred (ticks w)).

(** A failure answer is a bare failure record stamped with the clock
    reading just taken. *)
Definition failure_stamped_now (o : Oracle) (r : ApiResponse) (w : World) : Prop :=
  success r = false ->
  exists error, r = failure (Date.iso (last_reading o w)) error.

(** A failure answer carries no descriptive field. *)
Definition bare_if_failed (r : ApiResponse) : Prop := success r = false -> bare r.

(** Every clock reading is a time value, as [Date.now()] promises. *)
Definition clock_valid (o : Oracle) : Prop := forall n, Date.valid_time (clock o n).

(** The time stamp of an answer is what [toISOString] prints for some time
    value. *)
Definition dated (r : ApiResponse) : Prop :=
  exists t, Date.valid_time t /\ timeStamp r = Date.iso t.

(** The JWT library does not reject the signature of an imported key. *)
Definition signing_settles (o : Oracle) : Prop :=
  jose_importPKCS8 o = true -> exists jwt, jose_sign o = Some jwt.

(* ===================================================================== *)
(** ** Statements taken from the specification's wording *)
(* ===================================================================== *)

(** C4 as stated: one instant [now] is both what the state cache is
    overwritten with and what the answer is stamped with. *)
Definition new_track_as_specified (env : Env) (tok : string) (o : Oracle) (w : World)
    (song : Apple.Song) : Prop :=
  exists now r w',
    getAppleMusicData env tok o w = (Ok r, w') /\
    APPLE_STATE_CACHE w' !! APPLE_SONG_CACHE_KEY =
      Some {| songId := Apple.id song; cachedAt := now |} /\
    isPlaying r = true /\
    timeStamp r = Date.iso now.

(** C7 as stated: on the empty status the adapter answers with the
    nothing-playing record. *)
Definition empty_status_as_specified (env : Env) (o : Oracle) (w : World) : Prop :=
  (exists response,
      now_playing_endpoint o = Resolved response /\ status response = HTTP_NO_CONTENT) ->
  exists w', getSpotifyData env o w = (Ok nothing_playing, w').

(** C10 as stated: after a non-success status of the now-playing query the
    adapter always queries recently-played and returns that query's
    outcome. *)
Definition masking_as_specified (env : Env) (o : Oracle) (w : World) : Prop :=
  (exists response,
      now_playing_endpoint o = Resolved response /\
      ok response = false /\ status response <> HTTP_NO_CONTENT) ->
  exists token w1,
    getSpotifyData env o w = getSpotifyRecentlyPlayed token o w1 /\
    In SPOTIFY_RECENT_ENDPOINT (fetched (trace (snd (getSpotifyData env o w)))).

(* ===================================================================== *)
(** ** Further vocabulary *)
(* ===================================================================== *)

(** The two KV namespaces. *)
Definition kv_view (w : World) : gmap string ApiResponse * gmap string AppleCacheState :=
  (RESULT_CACHE w, APPLE_STATE_CACHE w).

(** The request asks to bypass the cache: [noCache=true], to the letter. *)
Definition bypasses (request : Request) : bool :=
  match noCache request with
  | Some v => String.eqb v NO_CACHE_VALUE
  | None => false
  end.

(** The character [c] does not occur in [s]. *)
Fixpoint free_of (c : ascii) (s : string) : Prop :=
  match s with
  | EmptyString => True
  | String c' s' => c' <> c /\ free_of c s'
  end.

(** The clock never runs backwards. *)
Definition clock_monotone (o : Oracle) : Prop :=
  forall m n, (m <= n)%nat -> clock o m <= clock o n.

(** The part of [fetch] after the cache has been consulted in vain: both
    adapters, the reconciliation and the cache write. *)
Definition answer_fresh (env : Env) : M Reply :=
  let appleMusicUserToken := APPLE_MUSIC_USER_TOKEN env in
  let* both := Promise_all (getSpotifyData env)
                           (getAppleMusicData env appleMusicUserToken) in
  let chosen := responseData (fst both) (snd both) in
  let* _ :=
    if success chosen then
      waitUntil_RESULT_CACHE_put NOW_PLAYING_CACHE_KEY chosen (expirationTtl chosen)
    else ret tt in
  ret {| body := chosen; X_Cache_Status := "MISS" |}.

(** The world once the result cache has been asked, and once its entry has
    been deleted. *)
Definition cache_asked (w : World) : World := record (ResultGet NOW_PLAYING_CACHE_KEY) w.

Definition cache_cleared (w : World) : World :=
  set_RESULT_CACHE (delete NOW_PLAYING_CACHE_KEY) (record (ResultDelete NOW_PLAYING_CACHE_KEY) w).

(** The requests the Spotify adapter can send, in order. *)
Definition spotify_requests : list Event :=
  [Fetch SPOTIFY_TOKEN_ENDPOINT; Fetch SPOTIFY_NOW_PLAYING_ENDPOINT;
   Fetch SPOTIFY_TOKEN_ENDPOINT; Fetch SPOTIFY_RECENT_ENDPOINT].

(** A success answer names [s] as its source and carries no error. *)
Definition success_from (s : string) (r : ApiResponse) : Prop :=
  success r = true -> source r = Some s /\ error r = None.

(** Both tokens for Apple Music are there. *)
Definition apple_authorized (o : Oracle) (musicUserToken : string) : Prop :=
  jose_importPKCS8 o = true /\
  (exists jwt, jose_sign o = Some jwt /\ JS.truthy jwt = true) /\
  JS.truthy musicUserToken = true.

Definition APPLE_GENERIC_ERROR : string :=
  "Failed to fetch from Apple Music. Is the User Token valid?".

(* ===================================================================== *)
(** ** Sample oracles and worlds *)
(* ===================================================================== *)

Definition sample_env : Env :=
  mkEnv "client-id" "client-secret" "refresh-token" "team" "key" "pem" "user-token".

(** 2024-01-01T00:00:00.000Z *)
Definition t0 : Z := 1704067200000.

Definition song_T1 : Apple.Song :=
  Apple.mkSong "T1" 200000 "Song One" "Artist" "Album"
               "https://img.example/{w}x{h}.jpg" "https://music.apple.com/song/T1".

Definition track_S1 : Spotify.Track :=
  Spotify.mkTrack "Track One" 180000 ["Ann"; "Bob"] "Record"
                  ["https://i.scdn.co/image/1"] "https://open.spotify.com/track/S1".

Definition answer {B} (status : Z) (statusText : string) (b : option B) : Fetched B :=
  Resolved (mkResponse status statusText (bool_decide (is_Some b)) b).

Definition token_granted : Fetched Spotify.Token :=
  answer 200 "OK" (Some (Spotify.mkToken (Some "access-token"))).

Definition token_refused : Fetched Spotify.Token :=
  answer 400 "Bad Request" (Some (Spotify.mkToken None)).

Definition recent_S1 : Fetched Spotify.RecentlyPlayed :=
  answer 200 "OK"
    (Some (Spotify.mkRecentlyPlayed
             [Spotify.mkPlayHistory "2023-12-31T23:00:00.000Z" track_S1])).

(** Both services healthy; nothing plays on Spotify, [song_T1] is Apple
    Music's most recent track. *)
Definition sample_oracle (clock : nat -> Z) : Oracle :=
  {| clock := clock;
     token_endpoint := fun _ => token_granted;
     now_playing_endpoint := answer 204 "No Content" None;
     recently_played_endpoint := recent_S1;
     jose_importPKCS8 := true;
     jose_sign := Some "developer-jwt";
     apple_endpoint := answer 200 "OK" (Some (Apple.mkRecent [song_T1]));
     state_get_ok := true;
     state_put_ok := true;
     result_get_ok := true;
     result_put_ok := true |}.

Definition with_now_playing (a : Fetched Spotify.CurrentlyPlaying) (o : Oracle) : Oracle :=
  {| clock := clock o;
     token_endpoint := token_endpoint o;
     now_playing_endpoint := a;
     recently_played_endpoint := recently_played_endpoint o;
     jose_importPKCS8 := jose_importPKCS8 o;
     jose_sign := jose_sign o;
     apple_endpoint := apple_endpoint o;
     state_get_ok := state_get_ok o;
     state_put_ok := state_put_ok o;
     result_get_ok := result_get_ok o;
     result_put_ok := result_put_ok o |}.

Definition with_token_endpoint (t : nat -> Fetched Spotify.Token) (o : Oracle) : Oracle :=
  {| clock := clock o;
     token_endpoint := t;
     now_playing_endpoint := now_playing_endpoint o;
     recently_played_endpoint := recently_played_endpoint o;
     jose_importPKCS8 := jose_importPKCS8 o;
     jose_sign := jose_sign o;
     apple_endpoint := apple_endpoint o;
     state_get_ok := state_get_ok o;
     state_put_ok := state_put_ok o;
     result_get_ok := result_get_ok o;
     result_put_ok := result_put_ok o |}.

Definition with_apple_endpoint (a : Fetched Apple.Recent) (o : Oracle) : Oracle :=
  {| clock := clock o;
     token_endpoint := token_endpoint o;
     now_playing_endpoint := now_playing_endpoint o;
     recently_played_endpoint := recently_played_endpoint o;
     jose_importPKCS8 := jose_importPKCS8 o;
     jose_sign := jose_sign o;
     apple_endpoint := a;
     state_get_ok := state_get_ok o;
     state_put_ok := state_put_ok o;
     result_get_ok := result_get_ok o;
     result_put_ok := result_put_ok o |}.

(** A clock that stands still, and one that advances by a millisecond
    between readings. *)
Definition frozen (now : Z) : nat -> Z := fun _ => now.
Definition ticking (start : Z) : nat -> Z := fun n => start + Z.of_nat n.

(** A fresh world with the given Apple state. *)
Definition world_remembering (memory : gmap string AppleCacheState) : World :=
  mkWorld ∅ memory 0 0 [].

Definition remembers_T1 : gmap string AppleCacheState :=
  {[ APPLE_SONG_CACHE_KEY := {| songId := "T1"; cachedAt := t0 |} ]}.

(** An answer that says it is playing, and one that says it is not. *)
Definition seen (isPlaying : bool) (timeStamp : string) (title : string) : ApiResponse :=
  {| success := true; isPlaying := isPlaying; timeStamp := timeStamp;
     source := None; duration := None; title := Some title; artist := None;
     album := None; albumImageUrl := None; songUrl := None; error := None |}.

Definition playing_at : string -> string -> ApiResponse := seen true.

(** Spotify's now-playing query answers 500, or 200 with [item: null]. *)
Definition now_playing_500 : Fetched Spotify.CurrentlyPlaying :=
  answer 500 "Internal Server Error" None.

Definition now_playing_no_item : Fetched Spotify.CurrentlyPlaying :=
  answer 200 "OK" (Some (Spotify.mkCurrentlyPlaying t0 true None)).

(** A token endpoint that grants the first request only. *)
Definition token_once (n : nat) : Fetched Spotify.Token :=
  match n with
  | O => token_granted
  | S _ => token_refused
  end.

(** Spotify reports [track_S1] as playing. *)
Definition now_playing_S1 : Fetched Spotify.CurrentlyPlaying :=
  answer 200 "OK" (Some (Spotify.mkCurrentlyPlaying t0 true (Some track_S1))).

(** A fresh world whose result cache holds [entry]. *)
Definition world_caching (entry : ApiResponse) : World :=
  mkWorld {[ NOW_PLAYING_CACHE_KEY := entry ]} ∅ 0 0 [].

Definition with_recently_played (a : Fetched Spotify.RecentlyPlayed) (o : Oracle) : Oracle :=
  {| clock := clock o;
     token_endpoint := token_endpoint o;
     now_playing_endpoint := now_playing_endpoint o;
     recently_played_endpoint := a;
     jose_importPKCS8 := jose_importPKCS8 o;
     jose_sign := jose_sign o;
     apple_endpoint := apple_endpoint o;
     state_get_ok := state_get_ok o;
     state_put_ok := state_put_ok o;
     result_get_ok := result_get_ok o;
     result_put_ok := result_put_ok o |}.

(** The state cache refuses writes. *)
Definition with_state_put_failing (o : Oracle) : Oracle :=
  {| clock := clock o;
     token_endpoint := token_endpoint o;
     now_playing_endpoint := now_playing_endpoint o;
     recently_played_endpoint := recently_played_endpoint o;
     jose_importPKCS8 := jose_importPKCS8 o;
     jose_sign := jose_sign o;
     apple_endpoint := apple_endpoint o;
     state_get_ok := state_get_ok o;
     state_put_ok := false;
     result_get_ok := result_get_ok o;
     result_put_ok := result_put_ok o |}.

Definition song_T2 : Apple.Song :=
  Apple.mkSong "T2" 150000 "Song Two" "Artist" "Album"
               "https://img.example/plain.jpg" "https://music.apple.com/song/T2".

(* ===================================================================== *)
(** ** Reasoning about computations *)
(* ===================================================================== *)

Arguments Date.iso : simpl never.
Arguments Date.parse : simpl never.
Arguments Date.of_number : simpl never.
Arguments JS.replace : simpl never.
Arguments JS.string_of_Z : simpl never.
Arguments JS.join : simpl never.
Arguments JS.truthy : simpl never.
Arguments String.append : simpl never.
Arguments String.eqb : simpl never.
Arguments Z.gtb : simpl never.
Arguments Z.ltb : simpl never.
Arguments Z.leb : simpl never.
Arguments Z.eqb : simpl never.
Arguments Z.sub : simpl never.

Lemma toISOString_valid t :
  Date.valid_time t -> Date.toISOString (Date.of_number t) = Ok (Date.iso t).
Proof.
  unfold Date.valid_time, Date.of_number, Date.TimeClip. intros [Hlo Hhi].
  destruct (Z.leb_spec (- Date.maxTime) t); [|lia].
  destruct (Z.leb_spec t Date.maxTime); [|lia]. reflexivity.
Qed.

Lemma formatAppleSong_valid song isLive t :
  Date.valid_time t ->
  exists r, formatAppleSong song isLive t = Ok r /\
            success r = true /\ isPlaying r = isLive /\ timeStamp r = Date.iso t.
Proof.
  intros Hv. unfold formatAppleSong. rewrite (toISOString_valid _ Hv).
  eexists. split; [reflexivity|]. cbn. auto.
Qed.

Lemma state_writes_app t1 t2 :
  state_writes (t1 ++ t2) = state_writes t1 ++ state_writes t2.
Proof.
  induction t1 as [|e t1 IH]; [reflexivity|].
  destruct e; cbn; rewrite IH; reflexivity.
Qed.

Lemma cache_writes_app t1 t2 :
  cache_writes (t1 ++ t2) = cache_writes t1 ++ cache_writes t2.
Proof.
  induction t1 as [|e t1 IH]; [reflexivity|].
  destruct e; cbn; rewrite IH; reflexivity.
Qed.

Lemma fetched_app t1 t2 : fetched (t1 ++ t2) = fetched t1 ++ fetched t2.
Proof.
  induction t1 as [|e t1 IH]; [reflexivity|].
  destruct e; cbn; rewrite IH; reflexivity.
Qed.

(** Unfolding of the monad's operations, for runs that are followed step
    by step. *)
Ltac unfold_M :=
  unfold failed, new_Date_toISOString, try_catch, bind, ask, ret, throw, global_fetch,
    update, json, first, deref, lift, APPLE_STATE_CACHE_get, APPLE_STATE_CACHE_put,
    Date_now in *.

(** *** The Apple Music adapter, path by path *)

(** Up to the liveness decision. *)
Lemma apple_reaches_decision env tok o w song :
  apple_serves o tok song ->
  getAppleMusicData env tok o w =
  try_catch
    (let* now := Date_now in
     let oneSongAgo := now - Apple.durationInMillis song in
     let new_song :=
       let* now1 := Date_now in
       let newState := {| songId := Apple.id song; cachedAt := now1 |} in
       let* _ := APPLE_STATE_CACHE_put APPLE_SONG_CACHE_KEY newState in
       let* now2 := Date_now in
       lift (formatAppleSong song true now2) in
     match APPLE_STATE_CACHE w !! APPLE_SONG_CACHE_KEY with
     | Some cached =>
         if String.eqb (songId cached) (Apple.id song) then
           if cachedAt cached >? oneSongAgo then
             lift (formatAppleSong song true (cachedAt cached))
           else
             let* logged := Date_now in
             lift (formatAppleSong song false (cachedAt cached))
         else new_song
     | None => new_song
     end)
    (fun _ => failed "Failed to fetch from Apple Music. Is the User Token valid?")
    o (record (StateGet APPLE_SONG_CACHE_KEY)
         (record (Fetch APPLE_RECENTLY_PLAYED_ENDPOINT) w)).
Proof.
  intros (Himp & (jwt & Hsign & Hjwt) & Htok & (resp & rest & Hresp & Hst & Hbody & Hjson)
          & Hget).
  unfold getAppleMusicData, getAppleDeveloperToken. unfold_M.
  rewrite Himp, Hsign. cbn. rewrite Hjwt, Htok. cbn. rewrite Hresp. cbn.
  replace (HTTP_NO_CONTENT <? status resp) with false
    by (symmetry; apply Z.ltb_ge; exact Hst).
  rewrite Hbody, Hjson. cbn. rewrite Hget. cbn. reflexivity.
Qed.

(** Same track as the one remembered: the remembered time is reported and
    nothing is written. *)
Lemma apple_same_track_run env tok o w song st :
  apple_serves o tok song ->
  APPLE_STATE_CACHE w !! APPLE_SONG_CACHE_KEY = Some st ->
  songId st = Apple.id song ->
  Date.valid_time (cachedAt st) ->
  let isLive := cachedAt st >? clock o (ticks w) - Apple.durationInMillis song in
  let w1 := tick (record (StateGet APPLE_SONG_CACHE_KEY)
                    (record (Fetch APPLE_RECENTLY_PLAYED_ENDPOINT) w)) in
  exists r,
    formatAppleSong song isLive (cachedAt st) = Ok r /\
    getAppleMusicData env tok o w = (Ok r, if isLive then w1 else tick w1).
Proof.
  intros Hserves Hlook Hid Hvalid isLive w1.
  destruct (formatAppleSong_valid song isLive _ Hvalid) as (r & Hr & _).
  exists r. split; [exact Hr|].
  rewrite (apple_reaches_decision _ _ _ _ _ Hserves). unfold_M. cbn.
  rewrite Hlook, Hid, String.eqb_refl.
  fold isLive. destruct isLive; cbn; rewrite Hr; reflexivity.
Qed.

(** A track that is not the one remembered: the new state is written with
    one clock reading and the answer is stamped with the next. *)
Lemma apple_new_track_run env tok o w song :
  apple_serves o tok song ->
  (forall st, APPLE_STATE_CACHE w !! APPLE_SONG_CACHE_KEY = Some st ->
              songId st <> Apple.id song) ->
  state_put_ok o = true ->
  Date.valid_time (clock o (S (S (ticks w)))) ->
  let newState := {| songId := Apple.id song; cachedAt := clock o (S (ticks w)) |} in
  exists r,
    formatAppleSong song true (clock o (S (S (ticks w)))) = Ok r /\
    getAppleMusicData env tok o w =
    (Ok r,
     tick (set_APPLE_STATE_CACHE (insert APPLE_SONG_CACHE_KEY newState)
       (record (StatePut APPLE_SONG_CACHE_KEY newState)
          (tick (tick (record (StateGet APPLE_SONG_CACHE_KEY)
                         (record (Fetch APPLE_RECENTLY_PLAYED_ENDPOINT) w))))))).
Proof.
  intros Hserves Hnew Hput Hvalid newState.
  destruct (formatAppleSong_valid song true _ Hvalid) as (r & Hr & _).
  exists r. split; [exact Hr|].
  rewrite (apple_reaches_decision _ _ _ _ _ Hserves). unfold_M. cbn.
  assert (Hgo : forall (k : M ApiResponse) o' w',
    match APPLE_STATE_CACHE w !! APPLE_SONG_CACHE_KEY with
    | Some cached =>
        if String.eqb (songId cached) (Apple.id song)
        then (if cachedAt cached >? clock o (ticks w) - Apple.durationInMillis song
              then (fun _ w0 => (formatAppleSong song true (cachedAt cached), w0))
              else (fun _ w0 => (formatAppleSong song false (cachedAt cached), tick w0)))
        else k
    | None => k
    end o' w' = k o' w').
  { intros k o' w'. destruct (APPLE_STATE_CACHE w !! APPLE_SONG_CACHE_KEY) as [st|] eqn:E;
      [|reflexivity].
    destruct (String.eqb_spec (songId st) (Apple.id song)) as [Heq|Hne]; [|reflexivity].
    exfalso. exact (Hnew st eq_refl Heq). }
  rewrite Hgo. rewrite Hput. cbn. fold newState. rewrite Hr. reflexivity.
Qed.

(** Every path of the adapter that writes to the state cache is a
    new-track path. *)
Lemma apple_writes_only_new_track env tok o w :
  state_writes (trace (snd (getAppleMusicData env tok o w))) <> state_writes (trace w) ->
  exists song,
    apple_serves o tok song /\
    forall st, APPLE_STATE_CACHE w !! APPLE_SONG_CACHE_KEY = Some st ->
               songId st <> Apple.id song.
Proof.
  unfold getAppleMusicData, getAppleDeveloperToken, apple_serves. unfold_M.
  destruct (jose_importPKCS8 o); cbn;
    [|intros H; exfalso; apply H; reflexivity].
  destruct (jose_sign o) as [jwt|]; cbn;
    [|intros H; exfalso; apply H; reflexivity].
  destruct (JS.truthy jwt) eqn:Hjwt; cbn;
    [|intros H; exfalso; apply H; reflexivity].
  destruct (JS.truthy tok) eqn:Htok; cbn;
    [|intros H; exfalso; apply H; reflexivity].
  destruct (apple_endpoint o) as [|resp]; cbn;
    [intros H; exfalso; apply H; rewrite state_writes_app, app_nil_r; reflexivity|].
  destruct (Z.ltb_spec HTTP_NO_CONTENT (status resp)) as [Hst|Hst]; cbn;
    [intros H; exfalso; apply H; rewrite state_writes_app, app_nil_r; reflexivity|].
  destruct (has_body resp) eqn:Hbody; cbn;
    [|intros H; exfalso; apply H; rewrite state_writes_app, app_nil_r; reflexivity].
  destruct (json_body resp) as [[songs]|] eqn:Hjson; cbn;
    [|intros H; exfalso; apply H; rewrite state_writes_app, app_nil_r; reflexivity].
  destruct songs as [|song rest]; cbn;
    [intros H; exfalso; apply H; rewrite state_writes_app, app_nil_r; reflexivity|].
  destruct (state_get_ok o) eqn:Hget; cbn;
    [|intros H; exfalso; apply H; rewrite !state_writes_app, !app_nil_r; reflexivity].
  intros H. exists song. split.
  { repeat split; eauto 10. }
  intros st Hst' Heq. apply H. rewrite Hst', Heq, String.eqb_refl.
  destruct (cachedAt st >? _); cbn;
    destruct (formatAppleSong song _ (cachedAt st)); cbn;
    rewrite !state_writes_app, !app_nil_r; reflexivity.
Qed.

(** *** Rules for [ensures], [preserves] and [returns] *)

Section Rules.
Context {A B : Type}.

Lemma ensures_ret (a : A) Q : (forall o w, Q o a w) -> ensures (ret a) Q.
Proof. intros H o w a' w' E. injection E as <- <-. apply H. Qed.

Lemma ensures_throw e (Q : Oracle -> A -> World -> Prop) : ensures (throw e) Q.
Proof. intros o w a' w' E. discriminate E. Qed.

Lemma ensures_lift (r : Res A) Q :
  (forall a, r = Ok a -> forall o w, Q o a w) -> ensures (lift r) Q.
Proof. intros H o w a' w' E. injection E as -> <-. apply H. reflexivity. Qed.

Lemma ensures_bind (m : M A) (k : A -> M B) Q :
  (forall a, ensures (k a) Q) -> ensures (bind m k) Q.
Proof.
  intros H o w b w' E. unfold bind in E.
  destruct (m o w) as [[a|e] w1]; [|discriminate E]. exact (H a o w1 b w' E).
Qed.

Lemma ensures_try_catch (m : M A) h Q :
  ensures m Q -> (forall e, ensures (h e) Q) -> ensures (try_catch m h) Q.
Proof.
  intros Hm Hh o w a w' E. unfold try_catch in E.
  destruct (m o w) as [[a1|e] w1] eqn:E1.
  - injection E as <- <-. exact (Hm o w a1 w1 E1).
  - exact (Hh e o w1 a w' E).
Qed.

Lemma ensures_weaken (m : M A) (Q Q' : Oracle -> A -> World -> Prop) :
  ensures m Q -> (forall o a w, Q o a w -> Q' o a w) -> ensures m Q'.
Proof. intros Hm HQ o w a w' E. apply HQ. exact (Hm o w a w' E). Qed.

Context {X : Type} (f : World -> X).

Lemma preserves_ret (a : A) : preserves f (ret a).
Proof. intros o w. reflexivity. Qed.

Lemma preserves_throw e : preserves f (@throw A e).
Proof. intros o w. reflexivity. Qed.

Lemma preserves_lift (r : Res A) : preserves f (lift r).
Proof. intros o w. reflexivity. Qed.

Lemma preserves_ask (g : Oracle -> A) : preserves f (ask g).
Proof. intros o w. reflexivity. Qed.

Lemma preserves_bind (m : M A) (k : A -> M B) :
  preserves f m -> (forall a, preserves f (k a)) -> preserves f (bind m k).
Proof.
  intros Hm Hk o w. unfold bind. specialize (Hm o w).
  destruct (m o w) as [[a|e] w1]; cbn in *; [|exact Hm].
  rewrite (Hk a o w1). exact Hm.
Qed.

Lemma preserves_try_catch (m : M A) h :
  preserves f m -> (forall e, preserves f (h e)) -> preserves f (try_catch m h).
Proof.
  intros Hm Hh o w. unfold try_catch. specialize (Hm o w).
  destruct (m o w) as [[a|e] w1]; cbn in *; [exact Hm|].
  rewrite (Hh e o w1). exact Hm.
Qed.

Lemma preserves_update (g : World -> World) :
  (forall w, f (g w) = f w) -> preserves f (update g).
Proof. intros H o w. apply H. Qed.

End Rules.

Lemma returns_bind {A B} (m : M A) (k : A -> M B) :
  returns m -> (forall a, returns (k a)) -> returns (bind m k).
Proof.
  intros Hm Hk o w. destruct (Hm o w) as (a & w1 & E). unfold bind. rewrite E.
  apply Hk.
Qed.

Lemma returns_try_catch {A} (m : M A) h :
  (forall e, returns (h e)) -> returns (try_catch m h).
Proof.
  intros Hh o w. unfold try_catch. destruct (m o w) as [[a|e] w1]; [eauto|apply Hh].
Qed.

Lemma returns_failed error : returns (failed error).
Proof. intros o w. unfold_M. cbn. eauto. Qed.

Lemma cache_view_record e w : quiet e -> cache_view (record e w) = cache_view w.
Proof.
  intros He. unfold cache_view. cbn. rewrite cache_writes_app.
  destruct e; cbn in *; try contradiction; rewrite app_nil_r; reflexivity.
Qed.

Lemma preserves_Date_now : preserves cache_view Date_now.
Proof. intros o w. reflexivity. Qed.

Lemma preserves_global_fetch {B} url (a : Fetched B) : preserves cache_view (global_fetch url a).
Proof.
  unfold global_fetch. apply preserves_bind.
  - apply preserves_update. intros w. apply cache_view_record. exact I.
  - intros _. destruct a; [apply preserves_throw|apply preserves_ret].
Qed.

Lemma preserves_state_get key : preserves cache_view (APPLE_STATE_CACHE_get key).
Proof.
  intros o w. unfold APPLE_STATE_CACHE_get.
  destruct (state_get_ok o); cbn; apply cache_view_record; exact I.
Qed.

Lemma preserves_state_put key v : preserves cache_view (APPLE_STATE_CACHE_put key v).
Proof.
  intros o w. unfold APPLE_STATE_CACHE_put.
  destruct (state_put_ok o); cbn.
  - change (cache_view (record (StatePut key v) w) = cache_view w).
    apply cache_view_record; exact I.
  - apply cache_view_record; exact I.
Qed.

(** Goals [preserves cache_view m] are settled along the syntax of [m]. *)
Ltac frame :=
  repeat first
    [ apply preserves_ret | apply preserves_throw | apply preserves_lift
    | apply preserves_ask | apply preserves_Date_now | apply preserves_global_fetch
    | apply preserves_state_get | apply preserves_state_put
    | apply preserves_bind; [|intros ?]
    | apply preserves_try_catch; [|intros ?]
    | match goal with
      | |- preserves _ (if ?c then _ else _) => destruct c
      | |- preserves _ (match ?x with _ => _ end) => destruct x
      | |- preserves _ (_ ?o) => progress unfold failed, new_Date_toISOString, json, first,
                                   deref, spotify_song
      | |- preserves _ ?m => progress unfold failed, new_Date_toISOString, json, first,
                               deref, spotify_song
      end ].

Lemma getAccessToken_quiet env : preserves cache_view (getAccessToken env).
Proof.
  unfold getAccessToken. apply preserves_bind; [intros o w; reflexivity|intros n].
  frame.
Qed.

Lemma getNowPlaying_quiet t : preserves cache_view (getNowPlaying t).
Proof. unfold getNowPlaying. frame. Qed.

Lemma getSpotifyRecentlyPlayed_quiet t : preserves cache_view (getSpotifyRecentlyPlayed t).
Proof. unfold getSpotifyRecentlyPlayed. frame. Qed.

Lemma getSpotifyData_quiet env : preserves cache_view (getSpotifyData env).
Proof.
  unfold getSpotifyData.
  repeat first [ apply getAccessToken_quiet | apply getNowPlaying_quiet
               | apply getSpotifyRecentlyPlayed_quiet | progress frame ].
Qed.

Lemma getAppleMusicData_quiet env tok : preserves cache_view (getAppleMusicData env tok).
Proof. unfold getAppleMusicData, getAppleDeveloperToken. frame. Qed.

(* ===================================================================== *)
(** ** Dates *)
(* ===================================================================== *)

Example iso_epoch : Date.iso 0 = "1970-01-01T00:00:00.000Z".
Proof. reflexivity. Qed.

Example iso_2024 : Date.iso 1704067200000 = "2024-01-01T00:00:00.000Z".
Proof. vm_compute. reflexivity. Qed.

Example iso_before_epoch : Date.iso (-1) = "1969-12-31T23:59:59.999Z".
Proof. vm_compute. reflexivity. Qed.

Example iso_leap_day : Date.iso 1709164800123 = "2024-02-29T00:00:00.123Z".
Proof. vm_compute. reflexivity. Qed.

Example iso_far : Date.iso 8640000000000000 = "+275760-09-13T00:00:00.000Z".
Proof. vm_compute. reflexivity. Qed.

Example parse_2024 : Date.parse "2024-01-01T00:00:00Z" = JS.Num 1704067200000.
Proof. vm_compute. reflexivity. Qed.

Example parse_2024_next : Date.parse "2024-01-02T00:00:00Z" = JS.Num 1704153600000.
Proof. vm_compute. reflexivity. Qed.

Example parse_millis : Date.parse "2016-12-13T20:44:04.589Z" = JS.Num 1481661844589.
Proof. vm_compute. reflexivity. Qed.

Example parse_offset_east : Date.parse "2024-01-01T01:00:00+01:00" = JS.Num 1704067200000.
Proof. vm_compute. reflexivity. Qed.

Example parse_date_only : Date.parse "2024-01-01" = JS.Num 1704067200000.
Proof. vm_compute. reflexivity. Qed.

(** *** [toISOString] and parsing are inverse *)

(** The characters of an appended string. *)
Lemma chars_app s1 s2 :
  list_ascii_of_string (s1 +:+ s2) = list_ascii_of_string s1 ++ list_ascii_of_string s2.
Proof.
  induction s1 as [|c s1 IH]; [reflexivity|].
  change (String c s1 +:+ s2) with (String c (s1 +:+ s2)). cbn. f_equal. exact IH.
Qed.

(** Reading the digits that [pad] prints. *)
Lemma digit_val_digit n : Date.digit_val (Date.digit n) = Some (n mod 10).
Proof.
  unfold Date.digit_val, Date.digit.
  assert (H : 0 <= n mod 10 < 10) by (apply Z.mod_pos_bound; lia).
  rewrite nat_ascii_embedding by lia.
  rewrite Nat2Z.inj_add, Z2Nat.id by lia. cbn [Z.of_nat Pos.of_succ_nat].
  replace (Z.of_nat 48) with 48 by reflexivity.
  destruct (Z.leb_spec 48 (48 + n mod 10)); [|lia].
  destruct (Z.leb_spec (48 + n mod 10) 57); [|lia].
  cbn. f_equal. lia.
Qed.

Lemma digits_app k1 k2 a l :
  Date.digits (k1 + k2) a l =
  match Date.digits k1 a l with
  | Some (a', r) => Date.digits k2 a' r
  | None => None
  end.
Proof.
  revert a l. induction k1 as [|k1 IH]; intros a l; cbn; [reflexivity|].
  destruct l as [|c r]; [reflexivity|].
  destruct (Date.digit_val c); [apply IH|reflexivity].
Qed.

Lemma digits_pad_acc k : forall n acc a rest,
  0 <= n < 10 ^ Z.of_nat k ->
  Date.digits k a (list_ascii_of_string (Date.pad_acc k n acc) ++ rest) =
  Some (a * 10 ^ Z.of_nat k + n, list_ascii_of_string acc ++ rest).
Proof.
  induction k as [|k IH]; intros n acc a rest Hn.
  - cbn. f_equal. f_equal. cbn in Hn. lia.
  - replace (S k) with (k + 1)%nat at 1 by lia. rewrite digits_app.
    cbn [Date.pad_acc].
    rewrite Nat2Z.inj_succ, Z.pow_succ_r in * by lia.
    rewrite IH by (Z.div_mod_to_equations; lia).
    cbn. rewrite digit_val_digit. f_equal. f_equal. Z.div_mod_to_equations; lia.
Qed.

Lemma digits_pad k n a rest :
  0 <= n < 10 ^ Z.of_nat k ->
  Date.digits k a (list_ascii_of_string (Date.pad k n) ++ rest) =
  Some (a * 10 ^ Z.of_nat k + n, rest).
Proof. intros Hn. unfold Date.pad. rewrite digits_pad_acc by exact Hn. reflexivity. Qed.

(** A year that starts with a digit is a four-digit year. *)
Lemma parse_year_digits c r v :
  Date.digit_val c = Some v -> Date.parse_year (c :: r) = Date.digits 4 0 (c :: r).
Proof.
  destruct c as [[] [] [] [] [] [] [] []]; intros H; vm_compute in H; try discriminate H;
    reflexivity.
Qed.

(** The calendar date of a day number leads back to the day number; its
    month and day are in range, and so is its year for the days that time
    values reach. *)
Lemma civil_round_trip z :
  let '(y, m, d) := Date.civil_from_days z in
  Date.days_from_civil y m 1 + d - 1 = z /\ 1 <= m <= 12 /\ 1 <= d <= 31 /\
  (- 100000000 <= z <= 100000000 -> - 999999 <= y <= 999999).
Proof.
  unfold Date.civil_from_days, Date.days_from_civil.
  set (z' := z + 719468).
  set (era := z' / 146097).
  set (doe := z' - era * 146097).
  assert (Hz : z = era * 146097 + doe - 719468) by (unfold doe, z'; lia).
  assert (Hdoe : 0 <= doe <= 146096) by (unfold doe, era; Z.div_mod_to_equations; lia).
  clearbody doe era. clear z'. subst z.
  set (yoe := (doe - doe / 1460 + doe / 36524 - doe / 146096) / 365).
  assert (Hyoe : 0 <= yoe <= 399) by (unfold yoe; Z.div_mod_to_equations; lia).
  set (doy := doe - (365 * yoe + yoe / 4 - yoe / 100)).
  assert (Hdoy : 0 <= doy <= 365) by (unfold doy, yoe; Z.div_mod_to_equations; lia).
  assert (Hd : doe = 365 * yoe + yoe / 4 - yoe / 100 + doy) by (unfold doy; lia).
  clearbody doy. clearbody yoe. subst doe.
  set (mp := (5 * doy + 2) / 153).
  assert (Hmp : 0 <= mp <= 11) by (unfold mp; Z.div_mod_to_equations; lia).
  set (d := doy - (153 * mp + 2) / 5 + 1).
  assert (Hdd : 1 <= d <= 31) by (unfold d, mp; Z.div_mod_to_equations; lia).
  assert (Hdoy' : doy = (153 * mp + 2) / 5 + d - 1) by (unfold d; lia).
  clearbody d. clearbody mp. subst doy.
  destruct (Z.ltb_spec mp 10).
  - replace (mp + 3 <=? 2) with false by (symmetry; apply Z.leb_gt; lia).
    replace (2 <? mp + 3) with true by (symmetry; apply Z.ltb_lt; lia).
    replace (mp + 3 - 3) with mp by lia.
    replace ((yoe + era * 400) / 400) with era by (Z.div_mod_to_equations; lia).
    split; [Z.div_mod_to_equations; lia|]. repeat split; try lia.
    all: Z.div_mod_to_equations; lia.
  - replace (mp - 9 <=? 2) with true by (symmetry; apply Z.leb_le; lia).
    replace (2 <? mp - 9) with false by (symmetry; apply Z.ltb_ge; lia).
    replace (mp - 9 + 9) with mp by lia.
    replace (yoe + era * 400 + 1 - 1) with (yoe + era * 400) by lia.
    replace ((yoe + era * 400) / 400) with era by (Z.div_mod_to_equations; lia).
    split; [Z.div_mod_to_equations; lia|]. repeat split; try lia.
    all: Z.div_mod_to_equations; lia.
Qed.

(** Reading a printed year. *)
Lemma parse_year_string y rest :
  - 999999 <= y <= 999999 ->
  Date.parse_year (list_ascii_of_string (Date.year_string y) ++ rest) = Some (y, rest).
Proof.
  intros Hy. unfold Date.year_string.
  destruct (Z.leb_spec 0 y) as [H0|H0]; cbn [andb].
  - destruct (Z.leb_spec y 9999) as [H1|H1].
    + transitivity (Date.digits 4 0 (list_ascii_of_string (Date.pad 4 y) ++ rest)).
      * unfold Date.pad. cbn [Date.pad_acc list_ascii_of_string app].
        apply parse_year_digits with (v := (y / 10 / 10 / 10) mod 10).
        apply digit_val_digit.
      * rewrite digits_pad by (change (10 ^ Z.of_nat 4) with 10000; lia).
        rewrite Z.mul_0_l, Z.add_0_l. reflexivity.
    + replace (y <? 0) with false by (symmetry; apply Z.ltb_ge; lia).
      rewrite chars_app. cbn [list_ascii_of_string app Date.parse_year].
      rewrite digits_pad by (change (10 ^ Z.of_nat 6) with 1000000; lia).
      rewrite Z.mul_0_l, Z.add_0_l, Z.abs_eq by lia. reflexivity.
  - replace (y <? 0) with true by (symmetry; apply Z.ltb_lt; lia).
    rewrite chars_app. cbn [list_ascii_of_string app Date.parse_year].
    rewrite digits_pad by (change (10 ^ Z.of_nat 6) with 1000000; lia).
    rewrite Z.mul_0_l, Z.add_0_l.
    replace (Z.abs y =? 0) with false by (symmetry; apply Z.eqb_neq; lia).
    replace (- Z.abs y) with y by lia. reflexivity.
Qed.

(** [new Date(new Date(t).toISOString()).getTime()] is [t]. *)
Lemma parse_iso t : Date.valid_time t -> Date.parse (Date.iso t) = JS.Num t.
Proof.
  unfold Date.valid_time. intros Ht. unfold Date.maxTime in Ht.
  unfold Date.parse, Date.iso.
  pose proof (civil_round_trip (t / Date.msPerDay)) as Hcivil.
  destruct (Date.civil_from_days (t / Date.msPerDay)) as [[y m] d].
  destruct Hcivil as (Hdays & Hm & Hd & Hy).
  assert (Hyear : - 999999 <= y <= 999999)
    by (apply Hy; unfold Date.msPerDay; Z.div_mod_to_equations; lia).
  set (r := t mod Date.msPerDay).
  assert (Hr : 0 <= r < 86400000) by (apply Z.mod_pos_bound; reflexivity).
  assert (Ht' : t = (t / Date.msPerDay) * Date.msPerDay + r)
    by (unfold r, Date.msPerDay; Z.div_mod_to_equations; lia).
  repeat rewrite chars_app. cbn [list_ascii_of_string app].
  unfold Date.parse_chars, Date.parse_date.
  rewrite parse_year_string by exact Hyear.
  rewrite digits_pad by (change (10 ^ Z.of_nat 2) with 100; lia).
  rewrite digits_pad by (change (10 ^ Z.of_nat 2) with 100; lia).
  change (0 * 10 ^ Z.of_nat 2) with 0. rewrite !Z.add_0_l.
  replace ((1 <=? m) && (m <=? 12) && (1 <=? d) && (d <=? 31)) with true
    by (symmetry; rewrite !andb_true_iff, !Z.leb_le; lia).
  unfold Date.parse_time.
  rewrite digits_pad by (change (10 ^ Z.of_nat 2) with 100; Z.div_mod_to_equations; lia).
  rewrite digits_pad by (change (10 ^ Z.of_nat 2) with 100; Z.div_mod_to_equations; lia).
  rewrite digits_pad by (change (10 ^ Z.of_nat 2) with 100; Z.div_mod_to_equations; lia).
  rewrite digits_pad by (change (10 ^ Z.of_nat 3) with 1000; Z.div_mod_to_equations; lia).
  change (0 * 10 ^ Z.of_nat 2) with 0. change (0 * 10 ^ Z.of_nat 3) with 0.
  rewrite !Z.add_0_l. cbn [Date.parse_offset].
  replace ((0 <=? r / 1000 mod 60) && (r / 1000 mod 60 <=? 59) && (r / 60000 mod 60 <=? 59) &&
           ((r / 3600000 <=? 23) ||
            (r / 3600000 =? 24) && (r / 60000 mod 60 =? 0) && (r / 1000 mod 60 =? 0) &&
            (r mod 1000 =? 0))) with true.
  2:{ symmetry. rewrite !andb_true_iff, orb_true_iff, !Z.leb_le.
      repeat split; [| | |left]; Z.div_mod_to_equations; lia. }
  replace ((Date.days_from_civil y m 1 + d - 1) * Date.msPerDay +
           (r / 3600000 * 3600000 + r / 60000 mod 60 * 60000 + r / 1000 mod 60 * 1000 +
            r mod 1000) - 0 * 60000) with t.
  2:{ rewrite Hdays. rewrite Ht' at 1. Z.div_mod_to_equations; lia. }
  unfold Date.TimeClip.
  destruct (Z.leb_spec (- Date.maxTime) t); [|unfold Date.maxTime in *; lia].
  destruct (Z.leb_spec t Date.maxTime); [|unfold Date.maxTime in *; lia]. reflexivity.
Qed.

(* ===================================================================== *)
(** ** Liveness inference (Apple Music) *)
(* ===================================================================== *)

Lemma sample_oracle_serves c : apple_serves (sample_oracle c) "user-token" song_T1.
Proof.
  unfold apple_serves. cbn. repeat split; try reflexivity.
  - exists "developer-jwt". split; reflexivity.
  - eexists _, []. repeat split; try reflexivity. cbn. unfold HTTP_NO_CONTENT. lia.
Qed.

(** C1. Same-track case of the liveness inference: when the state cache
    holds the id of the track Apple Music reports, the adapter answers
    with [isPlaying = true] exactly when the remembered time is strictly
    later than [now - durationInMillis], [now] being the clock reading
    taken for the window; in both cases the answer carries the remembered
    time (not [now]) as its time stamp, and the state cache is neither
    changed nor written to. *)
Theorem liveness_same_track env tok o w song st :
  apple_serves o tok song ->
  APPLE_STATE_CACHE w !! APPLE_SONG_CACHE_KEY = Some st ->
  songId st = Apple.id song ->
  Date.valid_time (cachedAt st) ->
  let now := clock o (ticks w) in
  exists r w',
    getAppleMusicData env tok o w = (Ok r, w') /\
    success r = true /\
    (isPlaying r = true <-> now - Apple.durationInMillis song < cachedAt st) /\
    timeStamp r = Date.iso (cachedAt st) /\
    APPLE_STATE_CACHE w' = APPLE_STATE_CACHE w /\
    state_writes (trace w') = state_writes (trace w).
Proof.
  intros Hserves Hlook Hid Hvalid now.
  destruct (apple_same_track_run env tok o w song st Hserves Hlook Hid Hvalid)
    as (r & Hr & Hrun).
  destruct (formatAppleSong_valid song
              (cachedAt st >? clock o (ticks w) - Apple.durationInMillis song)
              _ Hvalid) as (r' & Hr' & Hsucc & Hlive & Hstamp).
  rewrite Hr in Hr'. injection Hr' as <-.
  eexists r, _. split; [exact Hrun|].
  split; [exact Hsucc|]. split.
  { rewrite Hlive. unfold now. rewrite Z.gtb_ltb. apply Z.ltb_lt. }
  split; [exact Hstamp|].
  destruct (cachedAt st >? _); cbn; rewrite !state_writes_app; cbn;
    rewrite !app_nil_r; auto.
Qed.

(** The "within window" sample of the specification: memory [{T1, t0}],
    duration 200000, [now = t0 + 100000]. *)
Lemma liveness_same_track_witness :
  exists r w',
    getAppleMusicData sample_env "user-token" (sample_oracle (frozen (t0 + 100000)))
                      (world_remembering remembers_T1) = (Ok r, w') /\
    success r = true /\
    (isPlaying r = true <-> t0 + 100000 - 200000 < t0) /\
    timeStamp r = Date.iso t0 /\
    APPLE_STATE_CACHE w' = remembers_T1 /\
    state_writes (trace w') = [].
Proof.
  apply (liveness_same_track sample_env "user-token" (sample_oracle (frozen (t0 + 100000)))
           (world_remembering remembers_T1) song_T1 {| songId := "T1"; cachedAt := t0 |}).
  - apply sample_oracle_serves.
  - reflexivity.
  - reflexivity.
  - unfold Date.valid_time. cbn. unfold Date.maxTime, t0. lia.
Defined.

(** With no memory and a clock that advances between readings, the state
    is written with the reading 1001 and the answer is stamped with the
    reading 1002. *)
Lemma liveness_new_track_two_readings :
  ~ new_track_as_specified sample_env "user-token" (sample_oracle (ticking 1000))
      (world_remembering ∅) song_T1.
Proof.
  intros (now & r & w' & Hrun & Hmem & _ & Hstamp).
  vm_compute in Hrun. injection Hrun as <- <-.
  vm_compute in Hmem. injection Hmem as <-.
  vm_compute in Hstamp. discriminate Hstamp.
Qed.

(** C4 (amended). New-track case of the liveness inference: when the state
    cache is empty or remembers another track id, the adapter overwrites
    it with the current track id and the clock reading taken when the new
    state is built, and answers [isPlaying = true] stamped with the
    following clock reading, taken after the write; the two readings are
    distinct readings of the clock.  Moreover a run of the adapter that
    writes to the state cache is a run in this case. *)
Theorem liveness_new_track env tok o w :
  (forall song,
     apple_serves o tok song ->
     (forall st, APPLE_STATE_CACHE w !! APPLE_SONG_CACHE_KEY = Some st ->
                 songId st <> Apple.id song) ->
     state_put_ok o = true ->
     Date.valid_time (clock o (S (S (ticks w)))) ->
     let stored := {| songId := Apple.id song; cachedAt := clock o (S (ticks w)) |} in
     exists r w',
       getAppleMusicData env tok o w = (Ok r, w') /\
       success r = true /\
       isPlaying r = true /\
       timeStamp r = Date.iso (clock o (S (S (ticks w)))) /\
       APPLE_STATE_CACHE w' = <[APPLE_SONG_CACHE_KEY := stored]> (APPLE_STATE_CACHE w) /\
       state_writes (trace w') =
         state_writes (trace w) ++ [(APPLE_SONG_CACHE_KEY, stored)]) /\
  (state_writes (trace (snd (getAppleMusicData env tok o w))) <> state_writes (trace w) ->
   exists song,
     apple_serves o tok song /\
     forall st, APPLE_STATE_CACHE w !! APPLE_SONG_CACHE_KEY = Some st ->
                songId st <> Apple.id song).
Proof.
  split.
  - intros song Hserves Hnew Hput Hvalid stored.
    destruct (apple_new_track_run env tok o w song Hserves Hnew Hput Hvalid)
      as (r & Hr & Hrun).
    destruct (formatAppleSong_valid song true _ Hvalid)
      as (r' & Hr' & Hsucc & Hlive & Hstamp).
    rewrite Hr in Hr'. injection Hr' as <-.
    eexists r, _. split; [exact Hrun|].
    repeat (split; [assumption|]).
    cbn. split; [reflexivity|].
    rewrite !state_writes_app. cbn. rewrite !app_nil_r. reflexivity.
  - intros Hwrites.
    apply apple_writes_only_new_track in Hwrites. exact Hwrites.
Qed.

(** The "new track" sample of the specification, on a clock that stands
    still: no memory, track T1; the memory becomes [{T1, now}]. *)
Lemma liveness_new_track_witness :
  exists r w',
    getAppleMusicData sample_env "user-token" (sample_oracle (frozen t0))
                      (world_remembering ∅) = (Ok r, w') /\
    success r = true /\
    isPlaying r = true /\
    timeStamp r = Date.iso t0 /\
    APPLE_STATE_CACHE w' = remembers_T1 /\
    state_writes (trace w') = [(APPLE_SONG_CACHE_KEY, {| songId := "T1"; cachedAt := t0 |})].
Proof.
  apply (proj1 (liveness_new_track sample_env "user-token" (sample_oracle (frozen t0))
                  (world_remembering ∅)) song_T1).
  - apply sample_oracle_serves.
  - intros st Hst. vm_compute in Hst. discriminate Hst.
  - reflexivity.
  - unfold Date.valid_time. cbn. unfold Date.maxTime, frozen, t0. lia.
Defined.

(** C9. Idempotence of the liveness inference: two runs of the adapter in
    immediate succession, each served the same track and reading the same
    [now], starting from a state cache that already remembers that track,
    both return, give the same answer, and leave the state cache as it was
    after the first and after the second run. *)
Theorem liveness_idempotent env tok o1 o2 w song st now :
  apple_serves o1 tok song ->
  apple_serves o2 tok song ->
  APPLE_STATE_CACHE w !! APPLE_SONG_CACHE_KEY = Some st ->
  songId st = Apple.id song ->
  Date.valid_time (cachedAt st) ->
  clock o1 (ticks w) = now ->
  clock o2 (ticks (snd (getAppleMusicData env tok o1 w))) = now ->
  let run1 := getAppleMusicData env tok o1 w in
  let run2 := getAppleMusicData env tok o2 (snd run1) in
  exists r,
    fst run1 = Ok r /\ fst run2 = Ok r /\
    APPLE_STATE_CACHE (snd run1) = APPLE_STATE_CACHE w /\
    APPLE_STATE_CACHE (snd run2) = APPLE_STATE_CACHE w.
Proof.
  intros Hs1 Hs2 Hlook Hid Hvalid Hnow1 Hnow2 run1 run2.
  destruct (apple_same_track_run env tok o1 w song st Hs1 Hlook Hid Hvalid)
    as (r & Hr & Hrun1).
  assert (Hmem1 : APPLE_STATE_CACHE (snd run1) = APPLE_STATE_CACHE w).
  { unfold run1. rewrite Hrun1. cbn. destruct (cachedAt st >? _); reflexivity. }
  assert (Hlook1 : APPLE_STATE_CACHE (snd run1) !! APPLE_SONG_CACHE_KEY = Some st)
    by (rewrite Hmem1; exact Hlook).
  destruct (apple_same_track_run env tok o2 (snd run1) song st Hs2 Hlook1 Hid Hvalid)
    as (r2 & Hr2 & Hrun2).
  fold run1 in Hnow2. rewrite Hnow1 in Hr. rewrite Hnow2 in Hr2.
  rewrite Hr in Hr2. injection Hr2 as <-.
  exists r. unfold run2. rewrite Hrun2. unfold run1 at 1. rewrite Hrun1. cbn.
  repeat split; trivial.
  transitivity (APPLE_STATE_CACHE (snd run1)); [|exact Hmem1].
  destruct (cachedAt st >? clock o2 _ - _); reflexivity.
Qed.

(** Twice the "past window" sample of the specification: memory
    [{T1, t0}], duration 200000, [now = t0 + 300000]. *)
Lemma liveness_idempotent_witness :
  let o := sample_oracle (frozen (t0 + 300000)) in
  let run1 := getAppleMusicData sample_env "user-token" o (world_remembering remembers_T1) in
  let run2 := getAppleMusicData sample_env "user-token" o (snd run1) in
  exists r,
    fst run1 = Ok r /\ fst run2 = Ok r /\
    APPLE_STATE_CACHE (snd run1) = remembers_T1 /\
    APPLE_STATE_CACHE (snd run2) = remembers_T1.
Proof.
  apply (liveness_idempotent sample_env "user-token"
           (sample_oracle (frozen (t0 + 300000))) (sample_oracle (frozen (t0 + 300000)))
           (world_remembering remembers_T1) song_T1 {| songId := "T1"; cachedAt := t0 |}
           (t0 + 300000)).
  - apply sample_oracle_serves.
  - apply sample_oracle_serves.
  - reflexivity.
  - reflexivity.
  - unfold Date.valid_time. cbn. unfold Date.maxTime, t0. lia.
  - reflexivity.
  - reflexivity.
Defined.

(** The "past window" sample itself: the answer is not playing and is
    stamped with [t0]. *)
Example liveness_past_window :
  exists r w',
    getAppleMusicData sample_env "user-token" (sample_oracle (frozen (t0 + 300000)))
                      (world_remembering remembers_T1) = (Ok r, w') /\
    isPlaying r = false /\ timeStamp r = "2024-01-01T00:00:00.000Z" /\
    APPLE_STATE_CACHE w' = remembers_T1.
Proof. vm_compute. eexists _, _. repeat split. Qed.

(* ===================================================================== *)
(** ** Reconciliation and the result cache *)
(* ===================================================================== *)

(** What a request that is not answered from the cache does: both
    adapters run, their answers are reconciled, and the choice is written
    to the cache when it is a success. *)
Lemma fetch_miss request env o w reply w' :
  fetch request env o w = (Ok reply, w') ->
  X_Cache_Status reply = "MISS" ->
  exists spotify apple w0 w1 w2,
    cache_writes (trace w0) = cache_writes (trace w) /\
    getSpotifyData env o w0 = (Ok spotify, w1) /\
    getAppleMusicData env (APPLE_MUSIC_USER_TOKEN env) o w1 = (Ok apple, w2) /\
    body reply = responseData spotify apple /\
    w' = if success (body reply)
         then snd (waitUntil_RESULT_CACHE_put NOW_PLAYING_CACHE_KEY (body reply)
                     (expirationTtl (body reply)) o w2)
         else w2.
Proof.
  unfold fetch. intros Hrun Hmiss.
  unfold bind at 1 in Hrun.
  destruct (match noCache request with
            | Some v =>
                if String.eqb v NO_CACHE_VALUE
                then let* _ := RESULT_CACHE_delete NOW_PLAYING_CACHE_KEY in ret None
                else RESULT_CACHE_get NOW_PLAYING_CACHE_KEY
            | None => RESULT_CACHE_get NOW_PLAYING_CACHE_KEY
            end o w) as [[cachedResult|e] w0] eqn:Hconsult; [|discriminate Hrun].
  assert (Hquiet : cache_writes (trace w0) = cache_writes (trace w)).
  { assert (Hget : forall r w1, RESULT_CACHE_get NOW_PLAYING_CACHE_KEY o w = (r, w1) ->
                                cache_writes (trace w1) = cache_writes (trace w)).
    { unfold RESULT_CACHE_get. intros r w1 E.
      destruct (result_get_ok o); injection E as <- <-; cbn;
        rewrite cache_writes_app, app_nil_r; reflexivity. }
    destruct (noCache request) as [v|]; [|exact (Hget _ _ Hconsult)].
    destruct (String.eqb v NO_CACHE_VALUE); [|exact (Hget _ _ Hconsult)].
    cbn in Hconsult. injection Hconsult as <- <-. cbn.
    rewrite cache_writes_app, app_nil_r. reflexivity. }
  destruct cachedResult as [cached|].
  { cbn in Hrun. injection Hrun as <- <-. discriminate Hmiss. }
  unfold bind, Promise_all in Hrun.
  destruct (getSpotifyData env o w0) as [rs w1] eqn:Hs.
  destruct (getAppleMusicData env (APPLE_MUSIC_USER_TOKEN env) o w1) as [ra w2] eqn:Ha.
  destruct rs as [spotify|e]; [|discriminate Hrun].
  destruct ra as [apple|e]; [|discriminate Hrun].
  cbn [fst snd] in Hrun.
  exists spotify, apple, w0, w1, w2.
  destruct (success (responseData spotify apple)) eqn:Hsucc;
    cbn in Hrun; injection Hrun as <- <-; cbn; rewrite Hsucc; auto 10.
Qed.

(** C2. Reconciliation priority: when Spotify's answer says it is playing,
    it is the choice whatever Apple Music's answer is; otherwise, when
    Apple Music's answer says it is playing, that one is the choice. *)
Theorem reconciliation_priority (a b : ApiResponse) :
  (isPlaying a = true -> responseData a b = a) /\
  (isPlaying a = false -> isPlaying b = true -> responseData a b = b).
Proof.
  unfold responseData. split.
  - intros ->. reflexivity.
  - intros -> ->. reflexivity.
Qed.

(** The sample of the specification: both play, [b] was seen later than
    [a], and [a] is the choice. *)
Lemma reconciliation_priority_witness :
  let a := playing_at "2024-01-01T00:00:00.000Z" "on Spotify" in
  let b := playing_at "2024-01-02T00:00:00.000Z" "on Apple Music" in
  JS.ltb (getTime (timeStamp a)) (getTime (timeStamp b)) = true /\
  responseData a b = a /\
  responseData (failure "2024-01-01T00:00:00.000Z" "down") b = b.
Proof.
  intros a b. split; [vm_compute; reflexivity|]. split.
  - apply (proj1 (reconciliation_priority a b)). reflexivity.
  - apply (proj2 (reconciliation_priority (failure "2024-01-01T00:00:00.000Z" "down") b));
      reflexivity.
Defined.

(** C5. Result cache policy: a request that is not answered from the cache
    writes its answer to the cache if and only if the answer has
    [success = true], and the write's TTL is
    [min (floor (duration / 1000)) 600] seconds when the answer has a
    duration and 120 seconds when it has none; so 180000 ms give 180 and
    900000 ms give 600. *)
Theorem cache_write_policy :
  (forall request env o w reply w',
     fetch request env o w = (Ok reply, w') ->
     X_Cache_Status reply = "MISS" ->
     let answer := body reply in
     let ttl := match duration answer with
                | Some d => Z.min (d / 1000) 600
                | None => 120
                end in
     cache_writes (trace w') =
       cache_writes (trace w) ++
       (if success answer then [(NOW_PLAYING_CACHE_KEY, answer, ttl)] else [])) /\
  (forall r, duration r = Some 180000 -> expirationTtl r = 180) /\
  (forall r, duration r = Some 900000 -> expirationTtl r = 600) /\
  (forall r, duration r = None -> expirationTtl r = 120).
Proof.
  split; [|repeat split; intros r Hd; unfold expirationTtl; rewrite Hd; reflexivity].
  intros request env o w reply w' Hrun Hmiss answer ttl.
  destruct (fetch_miss _ _ _ _ _ _ Hrun Hmiss)
    as (spotify & apple & w0 & w1 & w2 & Hw0 & Hs & Ha & Hbody & ->).
  assert (Hw1 : cache_writes (trace w1) = cache_writes (trace w0)).
  { pose proof (getSpotifyData_quiet env o w0) as H. rewrite Hs in H.
    exact (f_equal snd H). }
  assert (Hw2 : cache_writes (trace w2) = cache_writes (trace w1)).
  { pose proof (getAppleMusicData_quiet env (APPLE_MUSIC_USER_TOKEN env) o w1) as H.
    rewrite Ha in H. exact (f_equal snd H). }
  fold answer. destruct (success answer).
  - unfold waitUntil_RESULT_CACHE_put. cbn.
    assert (Hput : forall w3 : World,
              trace (if result_put_ok o
                     then set_RESULT_CACHE (insert NOW_PLAYING_CACHE_KEY answer) w3
                     else w3) = trace w3)
      by (intros w3; destruct (result_put_ok o); reflexivity).
    rewrite Hput. cbn. rewrite cache_writes_app, Hw2, Hw1, Hw0. reflexivity.
  - rewrite app_nil_r, Hw2, Hw1, Hw0. reflexivity.
Qed.

(** A first request on a fresh world: nothing plays on Spotify, Apple
    Music reports a new track of 200000 ms, which is the answer; it is
    cached for 200 seconds. *)
Lemma cache_write_policy_witness :
  exists reply w',
    fetch (mkRequest None) sample_env (sample_oracle (frozen t0)) (world_remembering ∅)
      = (Ok reply, w') /\
    source (body reply) = Some "Apple Music" /\
    cache_writes (trace w') = [(NOW_PLAYING_CACHE_KEY, body reply, 200)].
Proof.
  destruct (fetch (mkRequest None) sample_env (sample_oracle (frozen t0))
              (world_remembering ∅)) as [[reply|e] w'] eqn:Hrun;
    [|vm_compute in Hrun; discriminate Hrun].
  exists reply, w'. split; [reflexivity|].
  assert (Hmiss : X_Cache_Status reply = "MISS")
    by (vm_compute in Hrun; injection Hrun as <- <-; reflexivity).
  pose proof (proj1 cache_write_policy _ _ _ _ _ _ Hrun Hmiss) as Hwrites.
  split.
  - vm_compute in Hrun. injection Hrun as <- <-. reflexivity.
  - rewrite Hwrites. vm_compute in Hrun. injection Hrun as <- <-. reflexivity.
Defined.

(* ===================================================================== *)
(** ** The Spotify adapter *)
(* ===================================================================== *)

Lemma getAccessToken_served env o w token :
  token_served o (token_requests w) token ->
  getAccessToken env o w = (Ok (Some token), token_asked w).
Proof.
  intros (resp & Hresp & Hjson & _). unfold getAccessToken. unfold_M. cbn.
  rewrite Hresp. cbn. rewrite Hjson. reflexivity.
Qed.

Lemma getAccessToken_denied env o w :
  token_denied o (token_requests w) ->
  exists token,
    JS.truthy_opt token = false /\
    getAccessToken env o w = (Ok token, token_asked w).
Proof.
  intros (resp & token & Hresp & Hjson & Hfalsy). exists token. split; [exact Hfalsy|].
  unfold getAccessToken. unfold_M. cbn. rewrite Hresp. cbn. rewrite Hjson. reflexivity.
Qed.

Lemma truthy_opt_Some token : JS.truthy token = true -> JS.truthy_opt (Some token) = true.
Proof. intros H. exact H. Qed.

(** With a first token, the adapter returns the now-playing answer when it
    has a title and runs the fallback when it has none. *)
Lemma getSpotifyData_by_title env o w token1 np w1 :
  token_served o (token_requests w) token1 ->
  getNowPlaying token1 o (token_asked w) = (Ok np, w1) ->
  getSpotifyData env o w =
  if JS.truthy_opt (title np) then (Ok np, w1) else recently_played_fallback env o w1.
Proof.
  intros Htok Hnp. unfold getSpotifyData. unfold bind at 1.
  rewrite (getAccessToken_served env o w token1 Htok).
  destruct Htok as (_ & _ & _ & Htruthy).
  rewrite (truthy_opt_Some _ Htruthy). cbn [negb from_option id].
  unfold bind at 1. rewrite Hnp.
  destruct (JS.truthy_opt (title np)); reflexivity.
Qed.

(** The fallback with and without a second token. *)
Lemma fallback_served env o w token2 :
  token_served o (token_requests w) token2 ->
  recently_played_fallback env o w = getSpotifyRecentlyPlayed token2 o (token_asked w).
Proof.
  intros Htok. unfold recently_played_fallback. unfold bind at 1.
  rewrite (getAccessToken_served env o w token2 Htok).
  destruct Htok as (_ & _ & _ & Htruthy).
  rewrite (truthy_opt_Some _ Htruthy). cbn [negb from_option id].
  unfold bind, ret. destruct (getSpotifyRecentlyPlayed token2 o (token_asked w)) as [[r|e] w'];
    reflexivity.
Qed.

Lemma fallback_denied env o w :
  token_denied o (token_requests w) ->
  recently_played_fallback env o w =
  (Ok (failure (Date.iso (clock o (ticks w))) "Could not get access token for Spotify."),
   tick (token_asked w)).
Proof.
  intros Hden. destruct (getAccessToken_denied env o w Hden) as (token & Hfalsy & Hrun).
  unfold recently_played_fallback. unfold bind at 1. rewrite Hrun, Hfalsy. reflexivity.
Qed.

(** The now-playing query on the empty status and on a non-success
    status. *)
Lemma getNowPlaying_empty_status token o w response :
  now_playing_endpoint o = Resolved response ->
  status response = HTTP_NO_CONTENT ->
  getNowPlaying token o w =
  (Ok nothing_playing, record (Fetch SPOTIFY_NOW_PLAYING_ENDPOINT) w).
Proof.
  intros Hresp Hst. unfold getNowPlaying. unfold_M. cbn. rewrite Hresp. cbn.
  rewrite Hst, Z.eqb_refl. reflexivity.
Qed.

Lemma getNowPlaying_bad_status token o w response :
  now_playing_endpoint o = Resolved response ->
  ok response = false ->
  status response <> HTTP_NO_CONTENT ->
  getNowPlaying token o w =
  (Ok (failure (Date.iso (clock o (ticks w))) (spotify_status_error response)),
   tick (record (Fetch SPOTIFY_NOW_PLAYING_ENDPOINT) w)).
Proof.
  intros Hresp Hok Hst. unfold getNowPlaying. unfold_M. cbn. rewrite Hresp. cbn.
  apply Z.eqb_neq in Hst. rewrite Hst, Hok. reflexivity.
Qed.

(** On the sample oracle nothing plays on Spotify (status 204), and the
    adapter answers with the most recently played track. *)
Lemma empty_status_falls_back :
  ~ empty_status_as_specified sample_env (sample_oracle (frozen t0)) (world_remembering ∅).
Proof.
  intros H. destruct H as (w' & Hrun).
  - eexists. split; reflexivity.
  - vm_compute in Hrun. discriminate Hrun.
Qed.

(** C7 (amended). Empty status of Spotify: when the now-playing query
    answers 204, [getNowPlaying] yields
    [{success: true, isPlaying: false, timeStamp: epoch start}], but this is
    not the adapter's answer: having no title it sends the adapter to the
    fallback, as does every now-playing answer without a title.  The
    adapter asks for a fresh token; with one it returns the outcome of the
    recently-played query, without one it returns the token failure. *)
Theorem empty_status_fallback env o w token1 response :
  token_served o (token_requests w) token1 ->
  now_playing_endpoint o = Resolved response ->
  status response = HTTP_NO_CONTENT ->
  let w1 := record (Fetch SPOTIFY_NOW_PLAYING_ENDPOINT) (token_asked w) in
  getNowPlaying token1 o (token_asked w) = (Ok nothing_playing, w1) /\
  (forall token2,
     token_served o (S (token_requests w)) token2 ->
     getSpotifyData env o w = getSpotifyRecentlyPlayed token2 o (token_asked w1)) /\
  (token_denied o (S (token_requests w)) ->
   getSpotifyData env o w =
   (Ok (failure (Date.iso (clock o (ticks w))) "Could not get access token for Spotify."),
    tick (token_asked w1))) /\
  (forall np w2,
     getNowPlaying token1 o (token_asked w) = (Ok np, w2) ->
     JS.truthy_opt (title np) = false ->
     getSpotifyData env o w = recently_played_fallback env o w2).
Proof.
  intros Htok Hresp Hst w1.
  pose proof (getNowPlaying_empty_status token1 o (token_asked w) response Hresp Hst) as Hnp.
  pose proof (getSpotifyData_by_title env o w token1 _ _ Htok Hnp) as Hrun.
  cbn in Hrun. fold w1 in Hrun, Hnp.
  split; [exact Hnp|]. split; [|split].
  - intros token2 Htok2. rewrite Hrun. exact (fallback_served env o w1 token2 Htok2).
  - intros Hden. rewrite Hrun. exact (fallback_denied env o w1 Hden).
  - intros np w2 Hnp' Hfalsy.
    rewrite (getSpotifyData_by_title env o w token1 np w2 Htok Hnp'), Hfalsy. reflexivity.
Qed.

Lemma sample_token_served c n : token_served (sample_oracle c) n "access-token".
Proof. eexists. repeat split; reflexivity. Qed.

(** On the sample oracle the adapter's answer is the recently played track
    and not the nothing-playing record. *)
Lemma empty_status_fallback_witness :
  let o := sample_oracle (frozen t0) in
  let w := world_remembering ∅ in
  exists r w',
    getSpotifyData sample_env o w = (Ok r, w') /\
    title r = Some "Track One" /\ isPlaying r = false /\
    timeStamp r = "2023-12-31T23:00:00.000Z".
Proof.
  intros o w.
  destruct (empty_status_fallback sample_env o w "access-token"
              (mkResponse 204 "No Content" false None)
              (sample_token_served _ _) eq_refl eq_refl) as (_ & Hserved & _).
  rewrite (Hserved "access-token" (sample_token_served _ _)).
  vm_compute. eexists _, _. repeat split.
Defined.

(** The token endpoint grants one token only and the now-playing query
    answers 500: the adapter answers with the token failure, and the
    recently-played query is never sent. *)
Lemma masking_without_second_token :
  ~ masking_as_specified sample_env
      (with_token_endpoint token_once (with_now_playing now_playing_500
                                         (sample_oracle (frozen t0))))
      (world_remembering ∅).
Proof.
  intros H. destruct H as (token & w1 & _ & Hin).
  - eexists. split; [reflexivity|]. split; [reflexivity|].
    cbn. unfold HTTP_NO_CONTENT. lia.
  - vm_compute in Hin. repeat destruct Hin as [Hin|Hin]; try discriminate Hin.
    exact Hin.
Qed.

(** C10 (amended). Masking of a now-playing failure: the adapter returns
    the now-playing answer exactly when it has a title.  So after a
    non-success status of the now-playing query, whose failure record has
    no title, that record is not returned: the adapter asks for a fresh
    token; when it gets one it sends the recently-played query and returns
    that query's outcome; when it gets none it returns the token failure
    and the recently-played query is not sent. *)
Theorem failure_masking env o w token1 response :
  token_served o (token_requests w) token1 ->
  now_playing_endpoint o = Resolved response ->
  ok response = false ->
  status response <> HTTP_NO_CONTENT ->
  let w1 := tick (record (Fetch SPOTIFY_NOW_PLAYING_ENDPOINT) (token_asked w)) in
  (forall np w2,
     getNowPlaying token1 o (token_asked w) = (Ok np, w2) ->
     getSpotifyData env o w =
     if JS.truthy_opt (title np) then (Ok np, w2) else recently_played_fallback env o w2) /\
  getNowPlaying token1 o (token_asked w) =
    (Ok (failure (Date.iso (clock o (ticks w))) (spotify_status_error response)), w1) /\
  (forall token2,
     token_served o (S (token_requests w)) token2 ->
     getSpotifyData env o w = getSpotifyRecentlyPlayed token2 o (token_asked w1)) /\
  (token_denied o (S (token_requests w)) ->
   getSpotifyData env o w =
   (Ok (failure (Date.iso (clock o (S (ticks w))))
          "Could not get access token for Spotify."),
    tick (token_asked w1)) /\
   fetched (trace (tick (token_asked w1))) =
     fetched (trace w) ++
     [SPOTIFY_TOKEN_ENDPOINT; SPOTIFY_NOW_PLAYING_ENDPOINT; SPOTIFY_TOKEN_ENDPOINT]).
Proof.
  intros Htok Hresp Hok Hst w1.
  pose proof (getNowPlaying_bad_status token1 o (token_asked w) response Hresp Hok Hst)
    as Hnp.
  pose proof (getSpotifyData_by_title env o w token1 _ _ Htok Hnp) as Hrun.
  cbn in Hrun. fold w1 in Hrun.
  split; [|split; [exact Hnp|split]].
  - intros np w2 Hnp'. exact (getSpotifyData_by_title env o w token1 np w2 Htok Hnp').
  - intros token2 Htok2. rewrite Hrun. exact (fallback_served env o w1 token2 Htok2).
  - intros Hden. split.
    + rewrite Hrun. exact (fallback_denied env o w1 Hden).
    + cbn. rewrite !fetched_app. cbn. rewrite <- !app_assoc. reflexivity.
Qed.

(** Now-playing answers 500 and a second token is granted: the answer is
    the recently played track, a success. *)
Lemma failure_masking_witness :
  let o := with_now_playing now_playing_500 (sample_oracle (frozen t0)) in
  exists r w',
    getSpotifyData sample_env o (world_remembering ∅) = (Ok r, w') /\
    success r = true /\ title r = Some "Track One" /\
    fetched (trace w') =
      [SPOTIFY_TOKEN_ENDPOINT; SPOTIFY_NOW_PLAYING_ENDPOINT; SPOTIFY_TOKEN_ENDPOINT;
       SPOTIFY_RECENT_ENDPOINT].
Proof.
  intros o.
  destruct (failure_masking sample_env o (world_remembering ∅) "access-token"
              (mkResponse 500 "Internal Server Error" false None)) as (_ & _ & Hserved & _).
  - eexists. repeat split; reflexivity.
  - reflexivity.
  - reflexivity.
  - cbn. unfold HTTP_NO_CONTENT. lia.
  - rewrite (Hserved "access-token"); [|eexists; repeat split; reflexivity].
    vm_compute. eexists _, _. repeat split.
Defined.

(* ===================================================================== *)
(** ** Failure answers *)
(* ===================================================================== *)

Lemma ensures_bind_pure {A B} (m : M A) (k : A -> M B) (P : A -> Prop) Q :
  ensures m (fun _ a _ => P a) -> (forall a, P a -> ensures (k a) Q) ->
  ensures (bind m k) Q.
Proof.
  intros Hm Hk o w b w' E. unfold bind in E.
  destruct (m o w) as [[a|e] w1] eqn:E1; [|discriminate E].
  exact (Hk a (Hm o w a w1 E1) o w1 b w' E).
Qed.

Lemma ensures_bind_ret {A} (m : M A) Q : ensures m Q -> ensures (bind m (fun a => ret a)) Q.
Proof.
  intros Hm o w a w' E. unfold bind, ret in E.
  destruct (m o w) as [[a1|e] w1] eqn:E1; [|discriminate E].
  injection E as <- <-. exact (Hm o w a1 w1 E1).
Qed.

Lemma failure_bare timeStamp error : bare (failure timeStamp error).
Proof. repeat split. Qed.

Lemma failed_bare error : ensures (failed error) (fun _ r _ => bare_if_failed r).
Proof.
  intros o w r w' E. unfold_M. cbn in E. injection E as <- <-.
  intros _. apply failure_bare.
Qed.

Lemma failed_stamped error : ensures (failed error) failure_stamped_now.
Proof.
  intros o w r w' E. unfold_M. cbn in E. injection E as <- <-.
  intros _. exists error. reflexivity.
Qed.

(** Goals [ensures m Q], for a [Q] that every success answer satisfies,
    are settled along the syntax of [m]; [failed] is left to [tac]. *)
Ltac post tac :=
  repeat first
    [ apply ensures_throw
    | apply ensures_ret; intros ? ?; cbn; intros Hsuccess; discriminate Hsuccess
    | tac
    | apply ensures_lift; intros ? ?
    | apply ensures_bind; intros ?
    | apply ensures_try_catch; [|intros ?]
    | match goal with
      | |- ensures (if ?c then _ else _) _ => destruct c
      | |- ensures (match ?x with _ => _ end) _ => destruct x
      | |- ensures ?m _ => progress unfold json, first, deref, spotify_song
      | H : formatAppleSong _ _ _ = Ok _ |- _ =>
          unfold formatAppleSong in H;
          destruct (Date.toISOString _); [|discriminate H];
          injection H as <-; intros ? ?; cbn; intros Hsuccess; discriminate Hsuccess
      end ].

Lemma getNowPlaying_bare token :
  ensures (getNowPlaying token) (fun _ r _ => bare_if_failed r).
Proof. unfold getNowPlaying. post ltac:(apply failed_bare). Qed.

Lemma getSpotifyRecentlyPlayed_bare token :
  ensures (getSpotifyRecentlyPlayed token) (fun _ r _ => bare_if_failed r).
Proof. unfold getSpotifyRecentlyPlayed. post ltac:(apply failed_bare). Qed.

Lemma getSpotifyRecentlyPlayed_stamped token :
  ensures (getSpotifyRecentlyPlayed token) failure_stamped_now.
Proof. unfold getSpotifyRecentlyPlayed. post ltac:(apply failed_stamped). Qed.

(** A now-playing answer with a title is a success. *)
Lemma titled_success r :
  bare_if_failed r -> JS.truthy_opt (title r) = true -> success r = true.
Proof.
  intros Hbare Htitle. destruct (success r) eqn:Hs; [reflexivity|].
  destruct (Hbare Hs) as (_ & _ & Ht & _). rewrite Ht in Htitle. discriminate Htitle.
Qed.

Lemma getSpotifyData_bare env :
  ensures (getSpotifyData env) (fun _ r _ => bare_if_failed r).
Proof.
  unfold getSpotifyData. apply ensures_bind. intros accessToken.
  destruct (negb (JS.truthy_opt accessToken)); [apply failed_bare|].
  apply ensures_bind_pure with (P := bare_if_failed); [apply getNowPlaying_bare|].
  intros np Hnp. destruct (JS.truthy_opt (title np)).
  { apply ensures_ret. intros _ _. exact Hnp. }
  apply ensures_bind. intros newAccessToken.
  destruct (negb (JS.truthy_opt newAccessToken)); [apply failed_bare|].
  apply ensures_bind_ret. apply getSpotifyRecentlyPlayed_bare.
Qed.

Lemma getSpotifyData_stamped env : ensures (getSpotifyData env) failure_stamped_now.
Proof.
  unfold getSpotifyData. apply ensures_bind. intros accessToken.
  destruct (negb (JS.truthy_opt accessToken)); [apply failed_stamped|].
  apply ensures_bind_pure with (P := bare_if_failed); [apply getNowPlaying_bare|].
  intros np Hnp. destruct (JS.truthy_opt (title np)) eqn:Htitle.
  { apply ensures_ret. intros o w Hfailed.
    rewrite (titled_success np Hnp Htitle) in Hfailed. discriminate Hfailed. }
  apply ensures_bind. intros newAccessToken.
  destruct (negb (JS.truthy_opt newAccessToken)); [apply failed_stamped|].
  apply ensures_bind_ret. apply getSpotifyRecentlyPlayed_stamped.
Qed.

Lemma getAppleMusicData_bare env tok :
  ensures (getAppleMusicData env tok) (fun _ r _ => bare_if_failed r).
Proof. unfold getAppleMusicData. post ltac:(apply failed_bare). Qed.

Lemma getAppleMusicData_stamped env tok :
  ensures (getAppleMusicData env tok) failure_stamped_now.
Proof. unfold getAppleMusicData. post ltac:(apply failed_stamped). Qed.

(** The Apple Music adapter always returns, provided the signing of the
    developer token settles. *)
Lemma getAppleMusicData_returns env tok o w :
  signing_settles o -> exists r w', getAppleMusicData env tok o w = (Ok r, w').
Proof.
  intros Hsign. unfold getAppleMusicData. unfold bind at 1.
  assert (Htoken : exists t, getAppleDeveloperToken env o w = (Ok t, w)).
  { unfold getAppleDeveloperToken. unfold_M. unfold signing_settles in Hsign.
    destruct (jose_importPKCS8 o); cbn; [|eauto].
    destruct (Hsign eq_refl) as (jwt & ->). cbn. eauto. }
  destruct Htoken as (t & ->).
  destruct (negb (JS.truthy_opt t) || negb (JS.truthy tok)).
  - apply returns_failed.
  - apply returns_try_catch. intros _. apply returns_failed.
Qed.

(** A run that does not get as far as the liveness decision ends in a
    failure answer. *)
Lemma apple_failure_paths env tok o w r w' :
  getAppleMusicData env tok o w = (Ok r, w') ->
  (forall song, ~ apple_serves o tok song) ->
  success r = false.
Proof.
  unfold getAppleMusicData, getAppleDeveloperToken, apple_serves. unfold_M.
  intros Hrun Hnot. revert Hrun.
  destruct (jose_importPKCS8 o) eqn:Himp; cbn;
    [|intros E; injection E as <- <-; reflexivity].
  destruct (jose_sign o) as [jwt|] eqn:Hsign; cbn; [|intros E; discriminate E].
  destruct (JS.truthy jwt) eqn:Hjwt; cbn; [|intros E; injection E as <- <-; reflexivity].
  destruct (JS.truthy tok) eqn:Htok; cbn; [|intros E; injection E as <- <-; reflexivity].
  destruct (apple_endpoint o) as [|resp] eqn:Hresp; cbn;
    [intros E; injection E as <- <-; reflexivity|].
  destruct (Z.ltb_spec HTTP_NO_CONTENT (status resp)) as [Hst|Hst]; cbn;
    [intros E; injection E as <- <-; reflexivity|].
  destruct (has_body resp) eqn:Hbody; cbn; [|intros E; injection E as <- <-; reflexivity].
  destruct (json_body resp) as [[songs]|] eqn:Hjson; cbn;
    [|intros E; injection E as <- <-; reflexivity].
  destruct songs as [|song rest]; cbn; [intros E; injection E as <- <-; reflexivity|].
  destruct (state_get_ok o) eqn:Hget; cbn; [|intros E; injection E as <- <-; reflexivity].
  exfalso. apply (Hnot song). repeat split; eauto 10.
Qed.

(** C8. Failure invariant: every answer with [success = false] that the
    Spotify adapter, the Apple Music adapter or the reconciliation of
    their answers produces has no source, duration, title, artist, album,
    album image or song URL. *)
Theorem failure_answers_bare env :
  (forall o w r w', getSpotifyData env o w = (Ok r, w') -> success r = false -> bare r) /\
  (forall tok o w r w',
     getAppleMusicData env tok o w = (Ok r, w') -> success r = false -> bare r) /\
  (forall request o w reply w',
     fetch request env o w = (Ok reply, w') ->
     X_Cache_Status reply = "MISS" ->
     success (body reply) = false -> bare (body reply)).
Proof.
  split; [|split].
  - intros o w r w' Hrun. exact (getSpotifyData_bare env o w r w' Hrun).
  - intros tok o w r w' Hrun. exact (getAppleMusicData_bare env tok o w r w' Hrun).
  - intros request o w reply w' Hrun Hmiss.
    destruct (fetch_miss _ _ _ _ _ _ Hrun Hmiss)
      as (spotify & apple & w0 & w1 & w2 & _ & Hs & Ha & -> & _).
    pose proof (getSpotifyData_bare env o w0 spotify w1 Hs) as Hbs.
    pose proof (getAppleMusicData_bare env _ o w1 apple w2 Ha) as Hba.
    unfold responseData.
    destruct (isPlaying spotify); [exact Hbs|].
    destruct (isPlaying apple); [exact Hba|].
    destruct (JS.geb _ _); assumption.
Qed.

(** Both services are down (Spotify grants no token, Apple Music's
    transport rejects): the reply is a failure and carries no descriptive
    field. *)
Lemma failure_answers_bare_witness :
  let o := with_token_endpoint (fun _ => token_refused)
             (with_apple_endpoint Rejected (sample_oracle (frozen t0))) in
  exists reply w',
    fetch (mkRequest None) sample_env o (world_remembering ∅) = (Ok reply, w') /\
    success (body reply) = false /\
    error (body reply) = Some "Could not get access token for Spotify." /\
    bare (body reply).
Proof.
  intros o.
  destruct (fetch (mkRequest None) sample_env o (world_remembering ∅))
    as [[reply|e] w'] eqn:Hrun; [|vm_compute in Hrun; discriminate Hrun].
  exists reply, w'. split; [reflexivity|].
  assert (Hshape : X_Cache_Status reply = "MISS" /\ success (body reply) = false /\
                   error (body reply) = Some "Could not get access token for Spotify.")
    by (vm_compute in Hrun; injection Hrun as <- <-; repeat split).
  destruct Hshape as (Hmiss & Hfailed & Herror).
  split; [exact Hfailed|]. split; [exact Herror|].
  exact (proj2 (proj2 (failure_answers_bare sample_env)) _ _ _ _ _ Hrun Hmiss Hfailed).
Defined.

(* ===================================================================== *)
(** ** Time stamps of the adapters' answers *)
(* ===================================================================== *)

Lemma TimeClip_Num x t : Date.TimeClip x = JS.Num t -> x = t /\ Date.valid_time t.
Proof.
  unfold Date.TimeClip, Date.valid_time.
  destruct (Z.leb_spec (- Date.maxTime) x); cbn; [|discriminate].
  destruct (Z.leb_spec x Date.maxTime); intros E; [|discriminate E].
  injection E as <-. lia.
Qed.

Lemma parse_valid s t : Date.parse s = JS.Num t -> Date.valid_time t.
Proof.
  unfold Date.parse, Date.parse_chars.
  destruct (Date.parse_date _) as [[[[y mo] d] r]|]; [|discriminate].
  destruct (_ && _); [|discriminate].
  destruct r as [|c r]; [intros E; exact (proj2 (TimeClip_Num _ _ E))|].
  destruct (Ascii.eqb_spec c "T") as [->|Hc].
  - destruct (Date.parse_time r) as [[ms off]|]; [|discriminate].
    intros E. exact (proj2 (TimeClip_Num _ _ E)).
  - destruct c as [[] [] [] [] [] [] [] []]; try discriminate. contradiction.
Qed.

Lemma toISOString_Ok d s :
  Date.toISOString d = Ok s -> exists t, d = JS.Num t /\ s = Date.iso t.
Proof. destruct d as [|t]; [discriminate|]. intros E. injection E as <-. eauto. Qed.

Lemma truthy_iso t : JS.truthy (Date.iso t) = true.
Proof.
  unfold JS.truthy. destruct (String.eqb_spec (Date.iso t) "") as [E|]; [|reflexivity].
  apply (f_equal list_ascii_of_string) in E. unfold Date.iso in E.
  destruct (Date.civil_from_days _) as [[y m] d].
  rewrite chars_app in E. cbn in E.
  destruct (list_ascii_of_string (Date.year_string y)); discriminate E.
Qed.

(** The time of a printed time value is that value. *)
Lemma getTime_iso t : Date.valid_time t -> getTime (Date.iso t) = JS.Num t.
Proof. intros Ht. unfold getTime. rewrite truthy_iso. apply parse_iso. exact Ht. Qed.

Lemma ensures_bind_known {A B} (m : M A) (k : A -> M B) (P : Oracle -> A -> Prop) Q :
  ensures m (fun o a _ => P o a) ->
  (forall a, ensures (k a) (fun o b w => P o a -> Q o b w)) ->
  ensures (bind m k) Q.
Proof.
  intros Hm Hk o w b w' E. unfold bind in E.
  destruct (m o w) as [[a|e] w1] eqn:E1; [|discriminate E].
  exact (Hk a o w1 b w' E (Hm o w a w1 E1)).
Qed.

Lemma toISOString_dated d :
  (forall t, d = JS.Num t -> Date.valid_time t) ->
  ensures (lift (Date.toISOString d))
          (fun _ s _ => exists t, Date.valid_time t /\ s = Date.iso t).
Proof.
  intros Hd o w s w' E. unfold lift in E. injection E as E _.
  destruct (toISOString_Ok _ _ E) as (t & -> & ->). eauto.
Qed.

Lemma new_Date_dated :
  ensures new_Date_toISOString
          (fun o s _ => clock_valid o -> exists t, Date.valid_time t /\ s = Date.iso t).
Proof.
  intros o w s w' E Hclock. unfold new_Date_toISOString in E. unfold_M. cbn in E.
  injection E as <- _. eauto.
Qed.

Lemma failed_dated error : ensures (failed error) (fun o r _ => clock_valid o -> dated r).
Proof.
  unfold failed. apply ensures_bind_known with (1 := new_Date_dated). intros now.
  apply ensures_ret. intros o w Hnow Hclock. exact (Hnow Hclock).
Qed.

Lemma spotify_song_dated ts isPlaying t :
  (exists x, Date.valid_time x /\ ts = Date.iso x) ->
  ensures (spotify_song ts isPlaying t) (fun o r _ => clock_valid o -> dated r).
Proof.
  intros Hts. unfold spotify_song. apply ensures_bind. intros image.
  apply ensures_ret. intros o w _. exact Hts.
Qed.

Lemma getNowPlaying_dated token :
  ensures (getNowPlaying token) (fun o r _ => clock_valid o -> dated r).
Proof.
  unfold getNowPlaying. apply ensures_bind. intros answer. apply ensures_bind.
  intros response. destruct (status response =? HTTP_NO_CONTENT).
  { apply ensures_bind_known
      with (P := fun _ s => exists t, Date.valid_time t /\ s = Date.iso t).
    - apply toISOString_dated. intros t E. exact (proj2 (TimeClip_Num _ _ E)).
    - intros epoch. apply ensures_ret. intros o w Hepoch _. exact Hepoch. }
  destruct (negb (ok response)); [apply failed_dated|].
  apply ensures_bind. intros song. apply ensures_bind. intros item.
  apply ensures_bind_known
    with (P := fun _ s => exists t, Date.valid_time t /\ s = Date.iso t).
  - apply toISOString_dated. intros t E. exact (proj2 (TimeClip_Num _ _ E)).
  - intros ts o w r w' E Hts. exact (spotify_song_dated ts _ item Hts o w r w' E).
Qed.

Lemma getSpotifyRecentlyPlayed_dated token :
  ensures (getSpotifyRecentlyPlayed token) (fun o r _ => clock_valid o -> dated r).
Proof.
  unfold getSpotifyRecentlyPlayed. apply ensures_bind. intros answer. apply ensures_bind.
  intros response. destruct (negb (ok response)); [apply failed_dated|].
  apply ensures_bind. intros songs. apply ensures_bind. intros mostRecent.
  apply ensures_bind_known
    with (P := fun _ s => exists t, Date.valid_time t /\ s = Date.iso t).
  - apply toISOString_dated. intros t E. exact (parse_valid _ _ E).
  - intros ts o w r w' E Hts. exact (spotify_song_dated ts _ _ Hts o w r w' E).
Qed.

Lemma getSpotifyData_dated env :
  ensures (getSpotifyData env) (fun o r _ => clock_valid o -> dated r).
Proof.
  unfold getSpotifyData. apply ensures_bind. intros accessToken.
  destruct (negb (JS.truthy_opt accessToken)); [apply failed_dated|].
  apply ensures_bind_known with (1 := getNowPlaying_dated _). intros np.
  destruct (JS.truthy_opt (title np)).
  { apply ensures_ret. intros o w Hnp. exact Hnp. }
  apply ensures_bind. intros newAccessToken.
  apply ensures_weaken with (Q := fun o r _ => clock_valid o -> dated r);
    [|intros o r w H _; exact H].
  destruct (negb (JS.truthy_opt newAccessToken)); [apply failed_dated|].
  apply ensures_bind_ret. apply getSpotifyRecentlyPlayed_dated.
Qed.

Lemma formatAppleSong_dated song isLive x r :
  formatAppleSong song isLive x = Ok r -> dated r.
Proof.
  unfold formatAppleSong.
  destruct (Date.toISOString (Date.of_number x)) as [s|] eqn:E; [|discriminate].
  intros Hr. injection Hr as <-.
  destruct (toISOString_Ok _ _ E) as (t & Ht & ->).
  exists t. split; [exact (proj2 (TimeClip_Num _ _ Ht))|reflexivity].
Qed.

Lemma getAppleMusicData_dated env tok :
  ensures (getAppleMusicData env tok) (fun o r _ => clock_valid o -> dated r).
Proof.
  unfold getAppleMusicData.
  repeat first
    [ apply failed_dated
    | apply ensures_throw
    | apply ensures_lift; intros r Hr o w _; exact (formatAppleSong_dated _ _ _ _ Hr)
    | apply ensures_bind; intros ?
    | apply ensures_try_catch; [|intros ?]
    | match goal with
      | |- ensures (if ?c then _ else _) _ => destruct c
      | |- ensures (match ?x with _ => _ end) _ => destruct x
      end ].
Qed.



(* ===================================================================== *)
(** ** What the adapters send and touch *)
(* ===================================================================== *)

(** Case analysis of every [match] and [if] a goal is stuck on. *)
Ltac paths :=
  repeat (cbn;
          match goal with
          | |- context [match ?x with _ => _ end] =>
              lazymatch x with
              | context [match _ with _ => _ end] => fail
              | _ => destruct x
              end
          end);
  cbn.

Lemma getAccessToken_footprint env o w :
  let w' := snd (getAccessToken env o w) in
  trace w' = trace w ++ [Fetch SPOTIFY_TOKEN_ENDPOINT] /\
  kv_view w' = kv_view w /\ ticks w' = ticks w.
Proof. unfold getAccessToken. unfold_M. paths; auto. Qed.

Lemma getNowPlaying_footprint token o w :
  let w' := snd (getNowPlaying token o w) in
  trace w' = trace w ++ [Fetch SPOTIFY_NOW_PLAYING_ENDPOINT] /\ kv_view w' = kv_view w.
Proof. unfold getNowPlaying, spotify_song. unfold_M. paths; auto. Qed.

Lemma getSpotifyRecentlyPlayed_footprint token o w :
  let w' := snd (getSpotifyRecentlyPlayed token o w) in
  trace w' = trace w ++ [Fetch SPOTIFY_RECENT_ENDPOINT] /\ kv_view w' = kv_view w.
Proof. unfold getSpotifyRecentlyPlayed, spotify_song. unfold_M. paths; auto. Qed.

Lemma failed_footprint error o w :
  let w' := snd (failed error o w) in
  trace w' = trace w /\ kv_view w' = kv_view w.
Proof. unfold_M. cbn. auto. Qed.

(** Recently played tracks are never reported as playing. *)
Lemma getSpotifyRecentlyPlayed_stopped token :
  ensures (getSpotifyRecentlyPlayed token) (fun _ r _ => isPlaying r = false).
Proof.
  unfold getSpotifyRecentlyPlayed, spotify_song, failed.
  repeat first
    [ apply ensures_throw
    | apply ensures_ret; intros ? ?; reflexivity
    | apply ensures_bind; intros ?
    | match goal with
      | |- ensures (if ?c then _ else _) _ => destruct c
      end ].
Qed.

(** The beginnings of a list of three or four elements. *)
Lemma prefix_cases3 {A} (a b c : A) (l : list A) :
  l `prefix_of` [a; b; c] -> l = [] \/ l = [a] \/ l = [a; b] \/ l = [a; b; c].
Proof.
  intros [k Hk]. destruct l as [|x1 [|x2 [|x3 [|x4 m]]]]; simplify_eq/=; auto.
Qed.

Lemma prefix_cases4 {A} (a b c d : A) (l : list A) :
  l `prefix_of` [a; b; c; d] ->
  l = [] \/ l = [a] \/ l = [a; b] \/ l = [a; b; c] \/ l = [a; b; c; d].
Proof.
  intros [k Hk]. destruct l as [|x1 [|x2 [|x3 [|x4 [|x5 m]]]]]; simplify_eq/=; auto 6.
Qed.

(** The ways a run of the Spotify adapter can go. *)
Lemma getSpotifyData_cases env o w :
  let run := getSpotifyData env o w in
  let denied := failed "Could not get access token for Spotify." in
  exists w1,
    trace w1 = trace w ++ [Fetch SPOTIFY_TOKEN_ENDPOINT] /\ kv_view w1 = kv_view w /\
    ((exists e, run = (Throw e, w1)) \/
     run = denied o w1 \/
     exists w2,
       trace w2 = trace w1 ++ [Fetch SPOTIFY_NOW_PLAYING_ENDPOINT] /\
       kv_view w2 = kv_view w /\
       ((exists e, run = (Throw e, w2)) \/
        (exists np, JS.truthy_opt (title np) = true /\ bare_if_failed np /\
                    run = (Ok np, w2)) \/
        exists w3,
          trace w3 = trace w2 ++ [Fetch SPOTIFY_TOKEN_ENDPOINT] /\
          kv_view w3 = kv_view w /\
          ((exists e, run = (Throw e, w3)) \/
           run = denied o w3 \/
           exists token, run = getSpotifyRecentlyPlayed token o w3))).
Proof.
  intros run denied. assert (Hrun : run = getSpotifyData env o w) by reflexivity.
  clearbody run. unfold getSpotifyData in Hrun.
  destruct (getAccessToken_footprint env o w) as (Ht1 & Hk1 & _).
  unfold bind at 1 in Hrun.
  destruct (getAccessToken env o w) as [[accessToken|e] w1]; cbn [snd] in *;
    exists w1; (split; [exact Ht1|]); (split; [exact Hk1|]); [|left; eauto].
  destruct (negb (JS.truthy_opt accessToken)); [right; left; exact Hrun|].
  right. right.
  destruct (getNowPlaying_footprint (default "" accessToken) o w1) as (Ht2 & Hk2).
  pose proof (getNowPlaying_bare (default "" accessToken) o w1) as Hbare.
  unfold bind at 1 in Hrun.
  destruct (getNowPlaying (default "" accessToken) o w1) as [[np|e] w2]; cbn [snd] in *;
    exists w2; (split; [exact Ht2|]); (split; [congruence|]); [|left; eauto].
  destruct (JS.truthy_opt (title np)) eqn:Htitle.
  { right. left. exists np. split; [exact Htitle|]. split; [|exact Hrun].
    exact (Hbare np w2 eq_refl). }
  right. right.
  destruct (getAccessToken_footprint env o w2) as (Ht3 & Hk3 & _).
  unfold bind at 1 in Hrun.
  destruct (getAccessToken env o w2) as [[newAccessToken|e] w3]; cbn [snd] in *;
    exists w3; (split; [exact Ht3|]); (split; [congruence|]); [|left; eauto].
  destruct (negb (JS.truthy_opt newAccessToken)); [right; left; exact Hrun|].
  right. right. exists (default "" newAccessToken).
  rewrite Hrun. unfold bind, ret.
  destruct (getSpotifyRecentlyPlayed (default "" newAccessToken) o w3) as [[r|e] w4];
    reflexivity.
Qed.

(** What a run of the Spotify adapter sends and leaves untouched. *)
Lemma getSpotifyData_footprint env o w :
  let w' := snd (getSpotifyData env o w) in
  (exists sent,
      sent `prefix_of` spotify_requests /\ sent <> [] /\ trace w' = trace w ++ sent) /\
  kv_view w' = kv_view w.
Proof.
  intros w'. unfold w'. clear w'.
  destruct (getSpotifyData_cases env o w) as (w1 & Ht1 & Hk1 & H1). cbn zeta in H1.
  assert (P1 : [Fetch SPOTIFY_TOKEN_ENDPOINT] `prefix_of` spotify_requests)
    by (eexists; reflexivity).
  assert (P2 : [Fetch SPOTIFY_TOKEN_ENDPOINT; Fetch SPOTIFY_NOW_PLAYING_ENDPOINT]
                 `prefix_of` spotify_requests) by (eexists; reflexivity).
  assert (P3 : [Fetch SPOTIFY_TOKEN_ENDPOINT; Fetch SPOTIFY_NOW_PLAYING_ENDPOINT;
                Fetch SPOTIFY_TOKEN_ENDPOINT] `prefix_of` spotify_requests)
    by (eexists; reflexivity).
  assert (P4 : spotify_requests `prefix_of` spotify_requests) by (exists []; reflexivity).
  destruct H1 as [(e & ->)|[->|(w2 & Ht2 & Hk2 & H2)]].
  - cbn. split; [|exact Hk1]. eexists. split; [exact P1|]. split; [discriminate|exact Ht1].
  - destruct (failed_footprint "Could not get access token for Spotify." o w1) as (Ht & Hk).
    split; [|congruence]. eexists. split; [exact P1|]. split; [discriminate|congruence].
  - assert (Ht2' : trace w2 = trace w ++ [Fetch SPOTIFY_TOKEN_ENDPOINT;
                                           Fetch SPOTIFY_NOW_PLAYING_ENDPOINT])
      by (rewrite Ht2, Ht1, <- app_assoc; reflexivity).
    destruct H2 as [(e & ->)|[(np & _ & _ & ->)|(w3 & Ht3 & Hk3 & H3)]].
    + cbn. split; [|exact Hk2]. eexists. split; [exact P2|]. split; [discriminate|exact Ht2'].
    + cbn. split; [|exact Hk2]. eexists. split; [exact P2|]. split; [discriminate|exact Ht2'].
    + assert (Ht3' : trace w3 = trace w ++ [Fetch SPOTIFY_TOKEN_ENDPOINT;
                                             Fetch SPOTIFY_NOW_PLAYING_ENDPOINT;
                                             Fetch SPOTIFY_TOKEN_ENDPOINT])
        by (rewrite Ht3, Ht2', <- app_assoc; reflexivity).
      destruct H3 as [(e & ->)|[->|(token & ->)]].
      * cbn. split; [|exact Hk3]. eexists. split; [exact P3|].
        split; [discriminate|exact Ht3'].
      * destruct (failed_footprint "Could not get access token for Spotify." o w3)
          as (Ht & Hk).
        split; [|congruence]. eexists. split; [exact P3|]. split; [discriminate|congruence].
      * destruct (getSpotifyRecentlyPlayed_footprint token o w3) as (Ht & Hk).
        split; [|congruence]. exists spotify_requests. split; [exact P4|].
        split; [discriminate|]. rewrite Ht, Ht3', <- app_assoc. reflexivity.
Qed.

(** X2. Whatever the services answer, the Spotify adapter sends a
    non-empty beginning of the sequence token request, now-playing query,
    token request, recently-played query, and nothing else; so the
    recently-played query is sent only as the last of all four.  The
    adapter touches neither KV namespace. *)
Theorem spotify_requests_in_order env o w :
  let w' := snd (getSpotifyData env o w) in
  exists sent,
    trace w' = trace w ++ sent /\
    sent `prefix_of` spotify_requests /\ sent <> [] /\
    (In (Fetch SPOTIFY_RECENT_ENDPOINT) sent -> sent = spotify_requests) /\
    kv_view w' = kv_view w.
Proof.
  destruct (getSpotifyData_footprint env o w) as ((sent & Hpre & Hne & Htrace) & Hkv).
  exists sent. repeat (split; [assumption|]). split; [|exact Hkv].
  destruct (prefix_cases4 _ _ _ _ _ Hpre) as [-> | [-> | [-> | [-> | ->]]]]; cbn; intros Hin;
    repeat (destruct Hin as [Hin|Hin]; [discriminate Hin|]); try contradiction.
  reflexivity.
Qed.

(** X3. An answer of the Spotify adapter that says it is playing is the
    now-playing query's answer: it is a success with a title, and the
    adapter has sent exactly the token request and the now-playing query.
    The recently-played fallback never yields a playing answer. *)
Theorem playing_without_fallback env o w r w' :
  getSpotifyData env o w = (Ok r, w') ->
  isPlaying r = true ->
  success r = true /\ JS.truthy_opt (title r) = true /\
  trace w' = trace w ++ [Fetch SPOTIFY_TOKEN_ENDPOINT; Fetch SPOTIFY_NOW_PLAYING_ENDPOINT].
Proof.
  intros Hrun Hplaying.
  assert (Hfailed : forall w0, failed "Could not get access token for Spotify." o w0
                               <> (Ok r, w')).
  { intros w0 E. unfold_M. cbn in E. injection E as <- _. discriminate Hplaying. }
  destruct (getSpotifyData_cases env o w) as (w1 & Ht1 & _ & H1). cbn zeta in H1.
  rewrite Hrun in H1.
  destruct H1 as [(e & E)|[E|(w2 & Ht2 & _ & H2)]]; [discriminate E| |].
  { exfalso. exact (Hfailed w1 (eq_sym E)). }
  destruct H2 as [(e & E)|[(np & Htitle & Hbare & E)|(w3 & _ & _ & H3)]];
    [discriminate E| |].
  - injection E as <- <-. split; [exact (titled_success r Hbare Htitle)|].
    split; [exact Htitle|]. rewrite Ht2, Ht1, <- app_assoc. reflexivity.
  - exfalso. destruct H3 as [(e & E)|[E|(token & E)]]; [discriminate E| |].
    + exact (Hfailed w3 (eq_sym E)).
    + pose proof (getSpotifyRecentlyPlayed_stopped token o w3 r w' (eq_sym E)) as Hstopped.
      cbn in Hstopped. rewrite Hplaying in Hstopped. discriminate Hstopped.
Qed.

Lemma playing_without_fallback_witness :
  exists r w',
    getSpotifyData sample_env (with_now_playing now_playing_S1 (sample_oracle (frozen t0)))
                   (world_remembering ∅) = (Ok r, w') /\
    title r = Some "Track One" /\ artist r = Some "Ann, Bob" /\
    success r = true /\ JS.truthy_opt (title r) = true /\
    trace w' = [Fetch SPOTIFY_TOKEN_ENDPOINT; Fetch SPOTIFY_NOW_PLAYING_ENDPOINT].
Proof.
  destruct (getSpotifyData sample_env
              (with_now_playing now_playing_S1 (sample_oracle (frozen t0)))
              (world_remembering ∅)) as [[r|e] w'] eqn:Hrun;
    [|vm_compute in Hrun; discriminate Hrun].
  exists r, w'. split; [reflexivity|].
  assert (Hshape : title r = Some "Track One" /\ artist r = Some "Ann, Bob" /\
                   isPlaying r = true)
    by (vm_compute in Hrun; injection Hrun as <- <-; repeat split).
  destruct Hshape as (Htitle & Hartist & Hplaying).
  split; [exact Htitle|]. split; [exact Hartist|].
  exact (playing_without_fallback _ _ _ _ _ Hrun Hplaying).
Defined.

(** What a run of the Apple Music adapter sends and leaves untouched. *)
Lemma getAppleMusicData_footprint env tok o w :
  let w' := snd (getAppleMusicData env tok o w) in
  (exists newState sent,
      sent `prefix_of` [Fetch APPLE_RECENTLY_PLAYED_ENDPOINT;
                        StateGet APPLE_SONG_CACHE_KEY;
                        StatePut APPLE_SONG_CACHE_KEY newState] /\
      trace w' = trace w ++ sent) /\
  RESULT_CACHE w' = RESULT_CACHE w.
Proof.
  cbn zeta. split; [|exact (f_equal fst (getAppleMusicData_quiet env tok o w))].
  unfold getAppleMusicData, getAppleDeveloperToken, formatAppleSong. unfold_M.
  paths;
    repeat rewrite <- app_assoc; cbn [app];
    match goal with
    | |- context [StatePut _ ?st] => exists st
    | |- _ => exists {| songId := ""; cachedAt := 0 |}
    end;
    first
      [ exists []; split; [eexists; reflexivity|rewrite app_nil_r; reflexivity]
      | eexists [_]; split; [eexists; reflexivity|reflexivity]
      | eexists [_; _]; split; [eexists; reflexivity|reflexivity]
      | eexists [_; _; _]; split; [eexists; reflexivity|reflexivity] ].
Qed.

(** X4. Whatever happens, the Apple Music adapter sends a beginning of the
    sequence recently-played request, read of the state cache, write of
    the state cache, and nothing else: it asks no other URL than Apple
    Music's, writes the state cache at most once and only after having read
    it, and never touches the result cache. *)
Theorem apple_requests_in_order env tok o w :
  let w' := snd (getAppleMusicData env tok o w) in
  exists newState sent,
    trace w' = trace w ++ sent /\
    sent `prefix_of` [Fetch APPLE_RECENTLY_PLAYED_ENDPOINT;
                      StateGet APPLE_SONG_CACHE_KEY;
                      StatePut APPLE_SONG_CACHE_KEY newState] /\
    fetched sent `prefix_of` [APPLE_RECENTLY_PLAYED_ENDPOINT] /\
    (length (state_writes sent) <= 1)%nat /\
    RESULT_CACHE w' = RESULT_CACHE w.
Proof.
  destruct (getAppleMusicData_footprint env tok o w)
    as ((newState & sent & Hpre & Htrace) & Hcache).
  exists newState, sent. split; [exact Htrace|]. split; [exact Hpre|].
  split; [|split; [|exact Hcache]];
    destruct (prefix_cases3 _ _ _ _ Hpre) as [-> | [-> | [-> | ->]]]; cbn; try lia;
    try (eexists; reflexivity).
Qed.

(* ===================================================================== *)
(** ** The result cache in front of the adapters *)
(* ===================================================================== *)

(** The three ways a request starts. *)
Lemma fetch_paths request env o w :
  fetch request env o w =
  if bypasses request then answer_fresh env o (cache_cleared w)
  else if result_get_ok o then
    match RESULT_CACHE w !! NOW_PLAYING_CACHE_KEY with
    | Some cached => (Ok {| body := cached; X_Cache_Status := "HIT" |}, cache_asked w)
    | None => answer_fresh env o (cache_asked w)
    end
  else (Throw KVError, cache_asked w).
Proof.
  unfold fetch, bypasses, answer_fresh.
  assert (Hget : forall k : option ApiResponse -> M Reply,
            bind (RESULT_CACHE_get NOW_PLAYING_CACHE_KEY) k o w =
            if result_get_ok o
            then k (RESULT_CACHE w !! NOW_PLAYING_CACHE_KEY) o (cache_asked w)
            else (Throw KVError, cache_asked w)).
  { intros k. unfold bind, RESULT_CACHE_get. destruct (result_get_ok o); reflexivity. }
  destruct (noCache request) as [v|]; [destruct (String.eqb v NO_CACHE_VALUE)|].
  - reflexivity.
  - rewrite Hget. destruct (result_get_ok o); [|reflexivity].
    destruct (RESULT_CACHE w !! NOW_PLAYING_CACHE_KEY); reflexivity.
  - rewrite Hget. destruct (result_get_ok o); [|reflexivity].
    destruct (RESULT_CACHE w !! NOW_PLAYING_CACHE_KEY); reflexivity.
Qed.

(** A fresh answer: what is replied and what is left behind. *)
Lemma answer_fresh_run env o w0 :
  exists rs ra w1 w2,
    getSpotifyData env o w0 = (rs, w1) /\
    getAppleMusicData env (APPLE_MUSIC_USER_TOKEN env) o w1 = (ra, w2) /\
    answer_fresh env o w0 =
    match rs, ra with
    | Ok spotify, Ok apple =>
        let chosen := responseData spotify apple in
        (Ok {| body := chosen; X_Cache_Status := "MISS" |},
         if success chosen
         then snd (waitUntil_RESULT_CACHE_put NOW_PLAYING_CACHE_KEY chosen
                     (expirationTtl chosen) o w2)
         else w2)
    | Throw e, _ => (Throw e, w2)
    | Ok _, Throw e => (Throw e, w2)
    end.
Proof.
  unfold answer_fresh, Promise_all. unfold bind at 1.
  destruct (getSpotifyData env o w0) as [rs w1] eqn:Hs.
  destruct (getAppleMusicData env (APPLE_MUSIC_USER_TOKEN env) o w1) as [ra w2] eqn:Ha.
  exists rs, ra, w1, w2. split; [reflexivity|]. split; [exact Ha|].
  destruct rs as [spotify|e]; [|reflexivity].
  destruct ra as [apple|e]; [|reflexivity].
  cbn [fst snd]. destruct (success (responseData spotify apple)); reflexivity.
Qed.

(** The events of a beginning of [l] are events of [l]. *)
Lemma prefix_In {A} (l1 l2 : list A) x : l1 `prefix_of` l2 -> In x l1 -> In x l2.
Proof. intros (k & ->) H. apply in_or_app. left. exact H. Qed.

(** X5. A request with [noCache=true] never reads the result cache:
    whether or not an entry is cached, the first thing it does is to
    issue the delete and the second to ask Spotify for a token; nothing
    it does afterwards is a read of the result cache, and a reply, if
    there is one, is marked MISS. *)
Theorem cache_bypass request env o w :
  bypasses request = true ->
  let run := fetch request env o w in
  (exists rest,
      trace (snd run) =
        trace w ++ ResultDelete NOW_PLAYING_CACHE_KEY ::
                   Fetch SPOTIFY_TOKEN_ENDPOINT :: rest /\
      forall key, ~ In (ResultGet key) rest) /\
  (forall reply, fst run = Ok reply -> X_Cache_Status reply = "MISS").
Proof.
  intros Hby run. unfold run. rewrite fetch_paths, Hby.
  destruct (answer_fresh_run env o (cache_cleared w)) as (rs & ra & w1 & w2 & Hs & Ha & ->).
  destruct (getSpotifyData_footprint env o (cache_cleared w))
    as ((ss & Hpre_s & Hne & Hts) & _).
  destruct (getAppleMusicData_footprint env (APPLE_MUSIC_USER_TOKEN env) o w1)
    as ((newState & sa & Hpre_a & Hta) & _).
  cbn zeta in Hts, Hta. rewrite Hs in Hts. rewrite Ha in Hta. cbn [snd] in Hts, Hta.
  destruct ss as [|first ss']; [contradiction|].
  assert (Hfirst : first = Fetch SPOTIFY_TOKEN_ENDPOINT).
  { destruct Hpre_s as (k & E). injection E as E _. symmetry. exact E. }
  subst first.
  assert (Hw2 : trace w2 = trace w ++ ResultDelete NOW_PLAYING_CACHE_KEY ::
                             Fetch SPOTIFY_TOKEN_ENDPOINT :: (ss' ++ sa))
    by (rewrite Hta, Hts; cbn; rewrite <- !app_assoc; reflexivity).
  assert (Hsent : forall key, ~ In (ResultGet key) (ss' ++ sa)).
  { intros key Hin. apply in_app_or in Hin. destruct Hin as [Hin|Hin].
    - assert (Hin' : In (ResultGet key) spotify_requests)
        by (apply (prefix_In _ _ _ Hpre_s); right; exact Hin).
      cbn in Hin'. intuition discriminate.
    - apply (prefix_In _ _ _ Hpre_a) in Hin. cbn in Hin. intuition discriminate. }
  assert (Hquiet : exists rest,
             trace w2 = trace w ++ ResultDelete NOW_PLAYING_CACHE_KEY ::
                          Fetch SPOTIFY_TOKEN_ENDPOINT :: rest /\
             forall key, ~ In (ResultGet key) rest) by eauto.
  destruct rs as [spotify|e]; [destruct ra as [apple|e]|].
  - cbn zeta. split; [|intros reply E; injection E as <-; reflexivity].
    destruct (success (responseData spotify apple)); [|exact Hquiet].
    exists ((ss' ++ sa) ++
            [ResultPut NOW_PLAYING_CACHE_KEY (responseData spotify apple)
                       (expirationTtl (responseData spotify apple))]).
    split.
    + unfold waitUntil_RESULT_CACHE_put. cbn [snd].
      destruct (result_put_ok o); cbn; rewrite Hw2, <- app_assoc; reflexivity.
    + intros key Hin. apply in_app_or in Hin. destruct Hin as [Hin|Hin].
      * exact (Hsent key Hin).
      * cbn in Hin. intuition discriminate.
  - split; [exact Hquiet|intros reply E; discriminate E].
  - split; [exact Hquiet|intros reply E; discriminate E].
Qed.

(** An entry is cached, the request bypasses it, and the reply is the
    fresh answer, marked MISS. *)
Lemma cache_bypass_witness :
  let request := mkRequest (Some "true") in
  let run := fetch request sample_env (sample_oracle (frozen t0))
                   (world_caching (playing_at "2020-01-01T00:00:00.000Z" "Old")) in
  exists reply, fst run = Ok reply /\ X_Cache_Status reply = "MISS" /\
                title (body reply) = Some "Song One".
Proof.
  intros request run.
  destruct (fst run) as [reply|e] eqn:Hrun; [|vm_compute in Hrun; discriminate Hrun].
  exists reply. split; [reflexivity|]. split.
  - exact (proj2 (cache_bypass request sample_env (sample_oracle (frozen t0))
                    (world_caching (playing_at "2020-01-01T00:00:00.000Z" "Old"))
                    eq_refl) reply Hrun).
  - vm_compute in Hrun. injection Hrun as <-. reflexivity.
Defined.

(** X1. A request that does not ask for a bypass and finds an entry in the
    result cache is answered with that entry, marked HIT, and nothing else
    happens: no service is asked, the clock is not read, and both KV
    namespaces stay as they were. *)
Theorem cache_hit request env o w cached :
  bypasses request = false ->
  result_get_ok o = true ->
  RESULT_CACHE w !! NOW_PLAYING_CACHE_KEY = Some cached ->
  fetch request env o w =
  (Ok {| body := cached; X_Cache_Status := "HIT" |},
   record (ResultGet NOW_PLAYING_CACHE_KEY) w).
Proof.
  intros Hby Hget Hlook. rewrite fetch_paths, Hby, Hget, Hlook. reflexivity.
Qed.

(** A request finds an entry although it asks for [noCache=TRUE]: only the
    exact value [true] bypasses the cache. *)
Lemma cache_hit_witness :
  let cached := playing_at "2020-01-01T00:00:00.000Z" "Old" in
  fetch (mkRequest (Some "TRUE")) sample_env (sample_oracle (frozen t0)) (world_caching cached)
  = (Ok {| body := cached; X_Cache_Status := "HIT" |},
     record (ResultGet NOW_PLAYING_CACHE_KEY) (world_caching cached)).
Proof.
  intros cached.
  apply (cache_hit (mkRequest (Some "TRUE")) sample_env (sample_oracle (frozen t0))
           (world_caching cached) cached); reflexivity.
Defined.

(** The entry of the result cache once a request that did not ask for a
    bypass has been given a fresh answer. *)
Lemma fresh_answer_cached request env o w reply w' :
  bypasses request = false ->
  fetch request env o w = (Ok reply, w') ->
  X_Cache_Status reply = "MISS" ->
  RESULT_CACHE w !! NOW_PLAYING_CACHE_KEY = None /\
  RESULT_CACHE w' !! NOW_PLAYING_CACHE_KEY =
  if success (body reply) && result_put_ok o then Some (body reply) else None.
Proof.
  intros Hby Hrun Hmiss. rewrite fetch_paths, Hby in Hrun.
  destruct (result_get_ok o); [|discriminate Hrun].
  destruct (RESULT_CACHE w !! NOW_PLAYING_CACHE_KEY) as [cached|] eqn:Hnone.
  { injection Hrun as <- _. discriminate Hmiss. }
  split; [reflexivity|].
  destruct (answer_fresh_run env o (cache_asked w)) as (rs & ra & w1 & w2 & Hs & Ha & E).
  rewrite Hrun in E.
  assert (Hw2 : RESULT_CACHE w2 = RESULT_CACHE w).
  { pose proof (f_equal fst (getSpotifyData_quiet env o (cache_asked w))) as H1.
    pose proof (f_equal fst (getAppleMusicData_quiet env (APPLE_MUSIC_USER_TOKEN env) o w1))
      as H2.
    rewrite Hs in H1. rewrite Ha in H2. cbn in H1, H2. congruence. }
  destruct rs as [spotify|e]; [|discriminate E].
  destruct ra as [apple|e]; [|discriminate E].
  cbn zeta in E. injection E as -> ->. cbn [body].
  destruct (success (responseData spotify apple)); cbn [andb].
  - unfold waitUntil_RESULT_CACHE_put. cbn [snd].
    destruct (result_put_ok o); cbn.
    + apply lookup_insert_eq.
    + rewrite Hw2. exact Hnone.
  - rewrite Hw2. exact Hnone.
Qed.

(** The entry of the result cache once a fresh success has been written. *)
Lemma fresh_success_cached request env o w reply w' :
  fetch request env o w = (Ok reply, w') ->
  X_Cache_Status reply = "MISS" ->
  success (body reply) = true ->
  result_put_ok o = true ->
  RESULT_CACHE w' !! NOW_PLAYING_CACHE_KEY = Some (body reply).
Proof.
  intros Hrun Hmiss Hsuccess Hput.
  destruct (fetch_miss _ _ _ _ _ _ Hrun Hmiss)
    as (spotify & apple & w0 & w1 & w2 & _ & _ & _ & _ & ->).
  rewrite Hsuccess. unfold waitUntil_RESULT_CACHE_put. cbn [snd]. rewrite Hput.
  cbn. apply lookup_insert_eq.
Qed.

(** X6. A request that does not ask for a bypass and is given a fresh
    answer (a reply marked MISS) found no entry in the result cache; when
    it is over the cache holds that answer if it is a success and the
    write goes through, and still holds no entry otherwise: a failure is
    never stored. *)
Theorem cache_after_fresh_answer request env o w reply w' :
  bypasses request = false ->
  fetch request env o w = (Ok reply, w') ->
  X_Cache_Status reply = "MISS" ->
  RESULT_CACHE w !! NOW_PLAYING_CACHE_KEY = None /\
  (success (body reply) = true -> result_put_ok o = true ->
   RESULT_CACHE w' !! NOW_PLAYING_CACHE_KEY = Some (body reply)) /\
  (success (body reply) = false ->
   RESULT_CACHE w' !! NOW_PLAYING_CACHE_KEY = None) /\
  (result_put_ok o = false ->
   RESULT_CACHE w' !! NOW_PLAYING_CACHE_KEY = None).
Proof.
  intros Hby Hrun Hmiss.
  destruct (fresh_answer_cached _ _ _ _ _ _ Hby Hrun Hmiss) as (Hnone & H).
  split; [exact Hnone|]. split; [|split].
  - intros Hs Hput. rewrite H, Hs, Hput. reflexivity.
  - intros Hs. rewrite H, Hs. reflexivity.
  - intros Hput. rewrite H, Hput, andb_false_r. reflexivity.
Qed.

(** Both services are down and nothing is cached: the reply is a failure
    and the cache is still empty. *)
Lemma cache_after_fresh_answer_witness :
  let o := with_token_endpoint (fun _ => token_refused)
             (with_apple_endpoint Rejected (sample_oracle (frozen t0))) in
  exists reply w',
    fetch (mkRequest None) sample_env o (world_remembering ∅) = (Ok reply, w') /\
    success (body reply) = false /\
    RESULT_CACHE w' !! NOW_PLAYING_CACHE_KEY = None.
Proof.
  intros o.
  destruct (fetch (mkRequest None) sample_env o (world_remembering ∅))
    as [[reply|e] w'] eqn:Hrun; [|vm_compute in Hrun; discriminate Hrun].
  exists reply, w'. split; [reflexivity|].
  assert (Hshape : X_Cache_Status reply = "MISS" /\ success (body reply) = false)
    by (vm_compute in Hrun; injection Hrun as <- <-; split; reflexivity).
  destruct Hshape as (Hmiss & Hfailed).
  split; [exact Hfailed|].
  exact (proj1 (proj2 (proj2 (cache_after_fresh_answer (mkRequest None) _ _ _ _ _
                                eq_refl Hrun Hmiss)))
           Hfailed).
Defined.

(** X7. Round trip through the result cache: after a fresh successful
    answer whose cache write goes through, a request that does not ask
    for a bypass and arrives while that entry is still there (it has
    neither expired nor been replaced) is answered with the very same
    record, marked HIT, without a request to either service, whatever
    the services would now answer. *)
Theorem cache_round_trip request1 request2 env o1 o2 w reply w1 w2 :
  fetch request1 env o1 w = (Ok reply, w1) ->
  X_Cache_Status reply = "MISS" ->
  success (body reply) = true ->
  result_put_ok o1 = true ->
  RESULT_CACHE w2 !! NOW_PLAYING_CACHE_KEY = RESULT_CACHE w1 !! NOW_PLAYING_CACHE_KEY ->
  bypasses request2 = false ->
  result_get_ok o2 = true ->
  fetch request2 env o2 w2 =
  (Ok {| body := body reply; X_Cache_Status := "HIT" |}, cache_asked w2).
Proof.
  intros Hrun Hmiss Hs Hput Hstill Hby Hget.
  rewrite (fresh_success_cached _ _ _ _ _ _ Hrun Hmiss Hs Hput) in Hstill.
  rewrite fetch_paths, Hby, Hget, Hstill. reflexivity.
Qed.

(** A first request on a fresh world, then a second one while Spotify has
    started to play a track: the second reply is still the cached one. *)
Lemma cache_round_trip_witness :
  let o1 := sample_oracle (frozen t0) in
  let o2 := with_now_playing now_playing_S1 (sample_oracle (frozen (t0 + 1000))) in
  exists reply w1,
    fetch (mkRequest None) sample_env o1 (world_remembering ∅) = (Ok reply, w1) /\
    source (body reply) = Some "Apple Music" /\
    fetch (mkRequest None) sample_env o2 w1 =
      (Ok {| body := body reply; X_Cache_Status := "HIT" |}, cache_asked w1).
Proof.
  intros o1 o2.
  destruct (fetch (mkRequest None) sample_env o1 (world_remembering ∅))
    as [[reply|e] w1] eqn:Hrun; [|vm_compute in Hrun; discriminate Hrun].
  exists reply, w1. split; [reflexivity|].
  assert (Hshape : X_Cache_Status reply = "MISS" /\ success (body reply) = true /\
                   source (body reply) = Some "Apple Music")
    by (vm_compute in Hrun; injection Hrun as <- <-; repeat split).
  destruct Hshape as (Hmiss & Hsuccess & Hsource).
  split; [exact Hsource|].
  exact (cache_round_trip (mkRequest None) (mkRequest None) sample_env o1 o2 _ _ _ _
           Hrun Hmiss Hsuccess eq_refl eq_refl eq_refl eq_refl).
Defined.

(* ===================================================================== *)
(** ** Success answers *)
(* ===================================================================== *)

Lemma failed_success_from s error :
  ensures (failed error) (fun _ r _ => success_from s r).
Proof.
  intros o w r w' E. unfold_M. cbn in E. injection E as <- _. intros H. discriminate H.
Qed.

Lemma spotify_song_success_from ts p t :
  ensures (spotify_song ts p t) (fun _ r _ => success_from "Spotify" r).
Proof.
  unfold spotify_song. apply ensures_bind. intros image. apply ensures_ret.
  intros _ _ _. cbn. auto.
Qed.

Lemma getNowPlaying_success_from token :
  ensures (getNowPlaying token)
          (fun _ r _ => title r = None \/ success_from "Spotify" r).
Proof.
  unfold getNowPlaying. apply ensures_bind. intros answer. apply ensures_bind.
  intros response. destruct (status response =? HTTP_NO_CONTENT).
  { apply ensures_bind. intros epoch. apply ensures_ret. intros _ _. left. reflexivity. }
  destruct (negb (ok response)).
  { apply ensures_weaken with (1 := failed_success_from "Spotify" _). auto. }
  apply ensures_bind. intros song. apply ensures_bind. intros item.
  apply ensures_bind. intros ts.
  apply ensures_weaken with (1 := spotify_song_success_from _ _ _). auto.
Qed.

Lemma getSpotifyRecentlyPlayed_success_from token :
  ensures (getSpotifyRecentlyPlayed token) (fun _ r _ => success_from "Spotify" r).
Proof.
  unfold getSpotifyRecentlyPlayed. apply ensures_bind. intros answer. apply ensures_bind.
  intros response. destruct (negb (ok response)); [apply failed_success_from|].
  apply ensures_bind. intros songs. apply ensures_bind. intros mostRecent.
  apply ensures_bind. intros ts. apply spotify_song_success_from.
Qed.

Lemma getSpotifyData_success_from env :
  ensures (getSpotifyData env) (fun _ r _ => success_from "Spotify" r).
Proof.
  unfold getSpotifyData. apply ensures_bind. intros accessToken.
  destruct (negb (JS.truthy_opt accessToken)); [apply failed_success_from|].
  apply ensures_bind_pure
    with (P := fun r => title r = None \/ success_from "Spotify" r);
    [apply getNowPlaying_success_from|].
  intros np Hnp. destruct (JS.truthy_opt (title np)) eqn:Htitle.
  { apply ensures_ret. intros _ _. destruct Hnp as [Hnone|Hnp]; [|exact Hnp].
    rewrite Hnone in Htitle. discriminate Htitle. }
  apply ensures_bind. intros newAccessToken.
  destruct (negb (JS.truthy_opt newAccessToken)); [apply failed_success_from|].
  apply ensures_bind_ret. apply getSpotifyRecentlyPlayed_success_from.
Qed.

Lemma formatAppleSong_success_from song isLive x r :
  formatAppleSong song isLive x = Ok r -> success_from "Apple Music" r.
Proof.
  unfold formatAppleSong. destruct (Date.toISOString _); [|discriminate].
  intros E. injection E as <-. intros _. cbn. auto.
Qed.

Lemma getAppleMusicData_success_from env tok :
  ensures (getAppleMusicData env tok) (fun _ r _ => success_from "Apple Music" r).
Proof.
  unfold getAppleMusicData.
  repeat first
    [ apply failed_success_from
    | apply ensures_throw
    | apply ensures_lift; intros r Hr o w; exact (formatAppleSong_success_from _ _ _ _ Hr)
    | apply ensures_bind; intros ?
    | apply ensures_try_catch; [|intros ?]
    | match goal with
      | |- ensures (if ?c then _ else _) _ => destruct c
      | |- ensures (match ?x with _ => _ end) _ => destruct x
      end ].
Qed.

(** A failure answer does not say it is playing. *)
Lemma stamped_not_playing o r w :
  failure_stamped_now o r w -> isPlaying r = true -> success r = true.
Proof.
  intros Hstamp Hplaying. destruct (success r) eqn:Hs; [reflexivity|].
  destruct (Hstamp Hs) as (error & ->). discriminate Hplaying.
Qed.

(** X8. A success answer names its adapter and carries no error: every
    answer with [success = true] has the source "Spotify" when the
    Spotify adapter returns it and "Apple Music" when the Apple Music
    adapter does, and no error message; the success record of the empty
    status, which names no source, is never the Spotify adapter's answer.
    So the source of a fresh successful reply is one of the two. *)
Theorem success_answers_sourced env :
  (forall o w r w',
     getSpotifyData env o w = (Ok r, w') -> success r = true ->
     source r = Some "Spotify" /\ error r = None) /\
  (forall tok o w r w',
     getAppleMusicData env tok o w = (Ok r, w') -> success r = true ->
     source r = Some "Apple Music" /\ error r = None) /\
  (forall request o w reply w',
     fetch request env o w = (Ok reply, w') ->
     X_Cache_Status reply = "MISS" ->
     success (body reply) = true ->
     (source (body reply) = Some "Spotify" \/ source (body reply) = Some "Apple Music") /\
     error (body reply) = None).
Proof.
  split; [|split].
  - intros o w r w' Hrun. exact (getSpotifyData_success_from env o w r w' Hrun).
  - intros tok o w r w' Hrun. exact (getAppleMusicData_success_from env tok o w r w' Hrun).
  - intros request o w reply w' Hrun Hmiss Hsuccess.
    destruct (fetch_miss _ _ _ _ _ _ Hrun Hmiss)
      as (spotify & apple & w0 & w1 & w2 & _ & Hs & Ha & Hbody & _).
    pose proof (getSpotifyData_success_from env o w0 spotify w1 Hs) as Hcs.
    pose proof (getAppleMusicData_success_from env _ o w1 apple w2 Ha) as Hca.
    rewrite Hbody in *. unfold responseData in *.
    destruct (isPlaying spotify); [destruct (Hcs Hsuccess); auto|].
    destruct (isPlaying apple); [destruct (Hca Hsuccess); auto|].
    destruct (JS.geb _ _); [destruct (Hcs Hsuccess)|destruct (Hca Hsuccess)]; auto.
Qed.

Lemma success_answers_sourced_witness :
  exists reply w',
    fetch (mkRequest None) sample_env (sample_oracle (frozen t0)) (world_remembering ∅)
      = (Ok reply, w') /\
    source (body reply) = Some "Apple Music" /\ error (body reply) = None.
Proof.
  destruct (fetch (mkRequest None) sample_env (sample_oracle (frozen t0))
              (world_remembering ∅)) as [[reply|e] w'] eqn:Hrun;
    [|vm_compute in Hrun; discriminate Hrun].
  exists reply, w'. split; [reflexivity|].
  assert (Hshape : X_Cache_Status reply = "MISS" /\ success (body reply) = true /\
                   source (body reply) <> Some "Spotify")
    by (vm_compute in Hrun; injection Hrun as <- <-; repeat split; discriminate).
  destruct Hshape as (Hmiss & Hsuccess & Hnot).
  destruct (proj2 (proj2 (success_answers_sourced sample_env)) _ _ _ _ _ Hrun Hmiss Hsuccess)
    as ([Hsource|Hsource] & Herror).
  - contradiction.
  - split; assumption.
Defined.

(** X9. An answer that says it is playing is never a failure: every
    answer with [isPlaying = true] that the Apple Music adapter returns,
    and every fresh reply of the handler with [isPlaying = true], has
    [success = true]. *)
Theorem playing_answers_succeed env :
  (forall tok o w r w',
     getAppleMusicData env tok o w = (Ok r, w') -> isPlaying r = true ->
     success r = true) /\
  (forall request o w reply w',
     fetch request env o w = (Ok reply, w') ->
     X_Cache_Status reply = "MISS" ->
     isPlaying (body reply) = true ->
     success (body reply) = true).
Proof.
  assert (Happle : forall tok o w r w',
            getAppleMusicData env tok o w = (Ok r, w') -> isPlaying r = true ->
            success r = true).
  { intros tok o w r w' Hrun.
    exact (stamped_not_playing o r w' (getAppleMusicData_stamped env tok o w r w' Hrun)). }
  assert (Hspotify : forall o w r w',
            getSpotifyData env o w = (Ok r, w') -> isPlaying r = true ->
            success r = true).
  { intros o w r w' Hrun.
    exact (stamped_not_playing o r w' (getSpotifyData_stamped env o w r w' Hrun)). }
  split; [exact Happle|].
  intros request o w reply w' Hrun Hmiss Hplaying.
  destruct (fetch_miss _ _ _ _ _ _ Hrun Hmiss)
    as (spotify & apple & w0 & w1 & w2 & _ & Hs & Ha & Hbody & _).
  rewrite Hbody in *. unfold responseData in *.
  destruct (isPlaying spotify) eqn:Hps; [exact (Hspotify _ _ _ _ Hs Hps)|].
  destruct (isPlaying apple) eqn:Hpa; [exact (Happle _ _ _ _ _ Ha Hpa)|].
  destruct (JS.geb _ _); congruence.
Qed.

Lemma playing_answers_succeed_witness :
  exists reply w',
    fetch (mkRequest None) sample_env (sample_oracle (frozen t0)) (world_remembering ∅)
      = (Ok reply, w') /\
    isPlaying (body reply) = true /\ success (body reply) = true.
Proof.
  destruct (fetch (mkRequest None) sample_env (sample_oracle (frozen t0))
              (world_remembering ∅)) as [[reply|e] w'] eqn:Hrun;
    [|vm_compute in Hrun; discriminate Hrun].
  exists reply, w'. split; [reflexivity|].
  assert (Hshape : X_Cache_Status reply = "MISS" /\ isPlaying (body reply) = true)
    by (vm_compute in Hrun; injection Hrun as <- <-; split; reflexivity).
  destruct Hshape as (Hmiss & Hplaying). split; [exact Hplaying|].
  exact (proj2 (playing_answers_succeed sample_env) _ _ _ _ _ Hrun Hmiss Hplaying).
Defined.

(* ===================================================================== *)
(** ** Tracks and exceptions of the adapters *)
(* ===================================================================== *)

(** X10. A track from the now-playing query: with a token, a 2xx answer
    other than 204 whose item has a non-empty name, at least one album
    image and a valid time stamp, the adapter's answer is that item, with
    the artists' names joined by ", ", the first album image and
    [isPlaying] as Spotify reports it; a paused track is answered as it
    is, without the recently-played fallback. *)
Theorem now_playing_track env o w token response song track image images :
  token_served o (token_requests w) token ->
  now_playing_endpoint o = Resolved response ->
  ok response = true ->
  status response <> HTTP_NO_CONTENT ->
  json_body response = Some song ->
  Spotify.item song = Some track ->
  Date.valid_time (Spotify.timestamp song) ->
  Spotify.album_images track = image :: images ->
  JS.truthy (Spotify.name track) = true ->
  getSpotifyData env o w =
  (Ok {| success := true; isPlaying := Spotify.is_playing song;
         timeStamp := Date.iso (Spotify.timestamp song);
         source := Some "Spotify"; duration := Some (Spotify.duration_ms track);
         title := Some (Spotify.name track);
         artist := Some (JS.join ", " (Spotify.artists track));
         album := Some (Spotify.album_name track); albumImageUrl := Some image;
         songUrl := Some (Spotify.external_url track); error := None |},
   record (Fetch SPOTIFY_NOW_PLAYING_ENDPOINT) (token_asked w)).
Proof.
  intros Htok Hresp Hok Hst Hjson Hitem Hvalid Himages Hname.
  erewrite getSpotifyData_by_title; [|exact Htok|].
  2:{ unfold getNowPlaying, spotify_song. unfold_M. cbn. rewrite Hresp. cbn.
      apply Z.eqb_neq in Hst. rewrite Hst, Hok. cbn. rewrite Hjson. cbn.
      rewrite Hitem. cbn. rewrite (toISOString_valid _ Hvalid). cbn.
      rewrite Himages. cbn. reflexivity. }
  cbn [title JS.truthy_opt]. rewrite Hname. reflexivity.
Qed.

Lemma now_playing_track_witness :
  exists r w',
    getSpotifyData sample_env (with_now_playing now_playing_S1 (sample_oracle (frozen t0)))
                   (world_remembering ∅) = (Ok r, w') /\
    isPlaying r = true /\ timeStamp r = "2024-01-01T00:00:00.000Z" /\
    artist r = Some "Ann, Bob" /\ albumImageUrl r = Some "https://i.scdn.co/image/1".
Proof.
  eexists _, _. split.
  - apply (now_playing_track sample_env
             (with_now_playing now_playing_S1 (sample_oracle (frozen t0)))
             (world_remembering ∅) "access-token"
             (mkResponse 200 "OK" true
                (Some (Spotify.mkCurrentlyPlaying t0 true (Some track_S1))))
             (Spotify.mkCurrentlyPlaying t0 true (Some track_S1)) track_S1
             "https://i.scdn.co/image/1" []).
    + apply sample_token_served.
    + reflexivity.
    + reflexivity.
    + cbn. unfold HTTP_NO_CONTENT. lia.
    + reflexivity.
    + reflexivity.
    + unfold Date.valid_time. cbn. unfold Date.maxTime, t0. lia.
    + reflexivity.
    + reflexivity.
  - vm_compute. repeat split.
Defined.

(** What [getSpotifyData] does with an exception of the now-playing query. *)
Lemma getSpotifyData_now_playing_throws env o w token e w1 :
  token_served o (token_requests w) token ->
  getNowPlaying token o (token_asked w) = (Throw e, w1) ->
  getSpotifyData env o w = (Throw e, w1).
Proof.
  intros Htok Hnp. unfold getSpotifyData. unfold bind at 1.
  rewrite (getAccessToken_served env o w token Htok).
  destruct Htok as (_ & _ & _ & Htruthy).
  rewrite (truthy_opt_Some _ Htruthy). cbn [negb from_option id].
  unfold bind at 1. rewrite Hnp. reflexivity.
Qed.

(** C6 (code bug). The adapters do raise.  [getSpotifyData] has no [try]:
    with an access token, a now-playing answer of status 200 whose body
    has [item: null] makes it throw a [TypeError] (reading
    [song.item.name]), a body that is no JSON a [SyntaxError], and a
    rejected request a [NetworkError]; a rejected token request throws as
    well.  In none of these cases is a failure record returned.
    [getAppleMusicData], whose body is inside a [try], does return an
    answer whatever the service and the state cache do, with one
    exception: the signing of the developer token is returned without
    being awaited inside the [try] around it, so its rejection leaves the
    adapter too. *)
Theorem adapters_raise env o w :
  (forall token response,
     token_served o (token_requests w) token ->
     now_playing_endpoint o = Resolved response ->
     ok response = true -> status response <> HTTP_NO_CONTENT ->
     (forall song, json_body response = Some song -> Spotify.item song = None ->
                   fst (getSpotifyData env o w) = Throw TypeError) /\
     (json_body response = None ->
      fst (getSpotifyData env o w) = Throw SyntaxError)) /\
  (forall token,
     token_served o (token_requests w) token ->
     now_playing_endpoint o = Rejected ->
     fst (getSpotifyData env o w) = Throw NetworkError) /\
  (token_endpoint o (token_requests w) = Rejected ->
   fst (getSpotifyData env o w) = Throw NetworkError) /\
  (forall tok,
     jose_importPKCS8 o = true -> jose_sign o = None ->
     fst (getAppleMusicData env tok o w) = Throw JoseError) /\
  (forall tok,
     signing_settles o ->
     exists r w', getAppleMusicData env tok o w = (Ok r, w')).
Proof.
  split; [|split; [|split; [|split]]].
  - intros token response Htok Hresp Hok Hst.
    assert (Hnp : forall e,
              fst (getNowPlaying token o (token_asked w)) = Throw e ->
              fst (getSpotifyData env o w) = Throw e).
    { intros e E. destruct (getNowPlaying token o (token_asked w)) as [r w1] eqn:Hrun.
      cbn in E. subst r.
      rewrite (getSpotifyData_now_playing_throws env o w token e w1 Htok Hrun).
      reflexivity. }
    apply Z.eqb_neq in Hst. split.
    + intros song Hjson Hitem. apply Hnp. unfold getNowPlaying. unfold_M. cbn.
      rewrite Hresp. cbn. rewrite Hst, Hok. cbn. rewrite Hjson. cbn. rewrite Hitem.
      reflexivity.
    + intros Hjson. apply Hnp. unfold getNowPlaying. unfold_M. cbn.
      rewrite Hresp. cbn. rewrite Hst, Hok. cbn. rewrite Hjson. reflexivity.
  - intros token Htok Hresp.
    erewrite getSpotifyData_now_playing_throws; [reflexivity|exact Htok|].
    unfold getNowPlaying. unfold_M. cbn. rewrite Hresp. reflexivity.
  - intros Hrej. unfold getSpotifyData, getAccessToken. unfold_M. cbn.
    rewrite Hrej. reflexivity.
  - intros tok Himport Hsign.
    unfold getAppleMusicData, getAppleDeveloperToken. unfold_M.
    rewrite Himport, Hsign. reflexivity.
  - intros tok Hsign. exact (getAppleMusicData_returns env tok o w Hsign).
Qed.

(** Spotify grants a token and answers the now-playing query with status
    200 and [item: null], as it does while an advertisement plays: the
    adapter throws. *)
Lemma adapters_raise_witness :
  fst (getSpotifyData sample_env
         (with_now_playing now_playing_no_item (sample_oracle (frozen t0)))
         (world_remembering ∅)) = Throw TypeError.
Proof.
  refine (proj1 (proj1 (adapters_raise sample_env
                          (with_now_playing now_playing_no_item (sample_oracle (frozen t0)))
                          (world_remembering ∅))
                   "access-token"
                   (mkResponse 200 "OK" true
                      (Some (Spotify.mkCurrentlyPlaying t0 true None)))
                   (sample_token_served _ _) eq_refl eq_refl _) _ eq_refl eq_refl).
  cbn. unfold HTTP_NO_CONTENT. lia.
Defined.

(** X11. An exception of the Spotify adapter is an exception of the
    handler: when the result cache does not answer the request and
    [getSpotifyData] throws, [fetch] throws, whatever the Apple Music
    adapter does, and nothing is written to the result cache. *)
Theorem spotify_exceptions_escape request env o w e :
  bypasses request = true \/
  (result_get_ok o = true /\ RESULT_CACHE w !! NOW_PLAYING_CACHE_KEY = None) ->
  fst (getSpotifyData env o (if bypasses request then cache_cleared w else cache_asked w))
    = Throw e ->
  (exists e', fst (fetch request env o w) = Throw e') /\
  cache_writes (trace (snd (fetch request env o w))) = cache_writes (trace w).
Proof.
  intros Hmiss He. rewrite fetch_paths.
  assert (Hfresh : forall w0,
            fst (getSpotifyData env o w0) = Throw e ->
            (exists e', fst (answer_fresh env o w0) = Throw e') /\
            cache_writes (trace (snd (answer_fresh env o w0))) = cache_writes (trace w0)).
  { intros w0 Hthrows.
    destruct (answer_fresh_run env o w0) as (rs & ra & w1 & w2 & Hs & Ha & ->).
    rewrite Hs in Hthrows. cbn in Hthrows. subst rs. cbn [fst snd].
    split; [eauto|].
    pose proof (f_equal snd (getSpotifyData_quiet env o w0)) as H1.
    pose proof (f_equal snd (getAppleMusicData_quiet env (APPLE_MUSIC_USER_TOKEN env) o w1))
      as H2.
    rewrite Hs in H1. rewrite Ha in H2. cbn in H1, H2. congruence. }
  destruct (bypasses request).
  - destruct (Hfresh _ He) as (Hthrows & Hwrites). split; [exact Hthrows|].
    rewrite Hwrites. cbn. rewrite cache_writes_app, app_nil_r. reflexivity.
  - destruct Hmiss as [Hby|(Hget & Hnone)]; [discriminate Hby|].
    rewrite Hget, Hnone.
    destruct (Hfresh _ He) as (Hthrows & Hwrites). split; [exact Hthrows|].
    rewrite Hwrites. cbn. rewrite cache_writes_app, app_nil_r. reflexivity.
Qed.

(** An advertisement plays on Spotify ([item: null]) while Apple Music
    answers well: the handler throws. *)
Lemma spotify_exceptions_escape_witness :
  let o := with_now_playing now_playing_no_item (sample_oracle (frozen t0)) in
  exists e, fst (fetch (mkRequest None) sample_env o (world_remembering ∅)) = Throw e.
Proof.
  intros o.
  refine (proj1 (spotify_exceptions_escape (mkRequest None) sample_env o
                   (world_remembering ∅) TypeError _ _)).
  - right. split; reflexivity.
  - vm_compute. reflexivity.
Defined.

(* ===================================================================== *)
(** ** The recently-played query *)
(* ===================================================================== *)

(** X12. The recently-played query, on a 2xx answer with a JSON body:
    only the first item of the history counts.  An empty history throws a
    [TypeError]; an answer, when there is one, is a success that is never
    playing, carries the first item's track name and is stamped with what
    [toISOString] prints for some time value; and when the first item's
    [played_at] is itself such a print and its track has an album image,
    the answer is that track with [played_at] passed on unchanged. *)
Theorem recently_played_first_item token o w response songs :
  recently_played_endpoint o = Resolved response ->
  ok response = true ->
  json_body response = Some songs ->
  let run := getSpotifyRecentlyPlayed token o w in
  (Spotify.items songs = [] -> fst run = Throw TypeError) /\
  (forall mostRecent older,
     Spotify.items songs = mostRecent :: older ->
     (forall r, fst run = Ok r ->
        success r = true /\ isPlaying r = false /\
        title r = Some (Spotify.name (Spotify.track mostRecent)) /\ dated r) /\
     (forall t image images,
        Date.valid_time t -> Spotify.played_at mostRecent = Date.iso t ->
        Spotify.album_images (Spotify.track mostRecent) = image :: images ->
        let track := Spotify.track mostRecent in
        fst run =
        Ok {| success := true; isPlaying := false;
              timeStamp := Spotify.played_at mostRecent;
              source := Some "Spotify"; duration := Some (Spotify.duration_ms track);
              title := Some (Spotify.name track);
              artist := Some (JS.join ", " (Spotify.artists track));
              album := Some (Spotify.album_name track); albumImageUrl := Some image;
              songUrl := Some (Spotify.external_url track); error := None |})).
Proof.
  intros Hresp Hok Hjson run.
  assert (Hrun : run =
            (let* mostRecent := first (Spotify.items songs) in
             let* timeStamp :=
               lift (Date.toISOString (Date.parse (Spotify.played_at mostRecent))) in
             spotify_song timeStamp false (Spotify.track mostRecent))
              o (record (Fetch SPOTIFY_RECENT_ENDPOINT) w)).
  { unfold run, getSpotifyRecentlyPlayed. unfold_M. cbn. rewrite Hresp. cbn.
    rewrite Hok. cbn. rewrite Hjson. reflexivity. }
  clearbody run. subst run. split.
  - intros ->. reflexivity.
  - intros mostRecent older ->. unfold spotify_song. unfold_M. cbn. split.
    + destruct (Date.parse (Spotify.played_at mostRecent)) as [|t] eqn:Hparse; cbn;
        [intros r E; discriminate E|].
      destruct (Spotify.album_images (Spotify.track mostRecent)); cbn;
        [intros r E; discriminate E|].
      intros r E. injection E as <-. cbn. repeat (split; [reflexivity|]).
      exists t. split; [exact (parse_valid _ _ Hparse)|reflexivity].
    + intros t image images Hvalid Hplayed Himages.
      rewrite Hplayed, (parse_iso t Hvalid). cbn. rewrite Himages. reflexivity.
Qed.

(** The history's first track was played at 23:00 on 2023-12-31: that
    time stamp and that track are the answer.  With an empty history the
    query throws. *)
Lemma recently_played_first_item_witness :
  (exists r,
      fst (getSpotifyRecentlyPlayed "access-token" (sample_oracle (frozen t0))
             (world_remembering ∅)) = Ok r /\
      isPlaying r = false /\ title r = Some "Track One" /\
      timeStamp r = "2023-12-31T23:00:00.000Z") /\
  fst (getSpotifyRecentlyPlayed "access-token"
         (with_recently_played (answer 200 "OK" (Some (Spotify.mkRecentlyPlayed [])))
                               (sample_oracle (frozen t0)))
         (world_remembering ∅)) = Throw TypeError.
Proof.
  split.
  - eexists. split.
    + refine (proj2 (proj2 (recently_played_first_item "access-token"
                             (sample_oracle (frozen t0)) (world_remembering ∅)
                             (mkResponse 200 "OK" true
                                (Some (Spotify.mkRecentlyPlayed
                                         [Spotify.mkPlayHistory "2023-12-31T23:00:00.000Z"
                                                                track_S1])))
                             _ eq_refl eq_refl eq_refl)
                      _ [] eq_refl) 1704063600000 "https://i.scdn.co/image/1" [] _ _ _).
      * unfold Date.valid_time, Date.maxTime. lia.
      * vm_compute. reflexivity.
      * reflexivity.
    + cbn. repeat split.
  - exact (proj1 (recently_played_first_item "access-token"
                    (with_recently_played
                       (answer 200 "OK" (Some (Spotify.mkRecentlyPlayed [])))
                       (sample_oracle (frozen t0)))
                    (world_remembering ∅)
                    (mkResponse 200 "OK" true (Some (Spotify.mkRecentlyPlayed [])))
                    _ eq_refl eq_refl eq_refl) eq_refl).
Defined.

(* ===================================================================== *)
(** ** Failures of the Apple Music adapter, cause by cause *)
(* ===================================================================== *)

(** X13. Without a token the Apple Music adapter sends nothing.  When the
    private key is refused, or the signed token or the user token is
    empty, the answer is the failure "Could not generate Apple Developer
    Token." stamped with the current time, and neither a request nor a KV
    operation has taken place.  When the signing itself rejects, the
    adapter throws: that rejection is outside both [try] blocks. *)
Theorem apple_without_token env tok o w :
  (signing_settles o ->
   jose_importPKCS8 o = false \/
   (exists jwt, jose_sign o = Some jwt /\ JS.truthy jwt = false) \/
   JS.truthy tok = false ->
   getAppleMusicData env tok o w =
   (Ok (failure (Date.iso (clock o (ticks w))) "Could not generate Apple Developer Token."),
    tick w)) /\
  (jose_importPKCS8 o = true -> jose_sign o = None ->
   getAppleMusicData env tok o w = (Throw JoseError, w)).
Proof.
  unfold getAppleMusicData, getAppleDeveloperToken, signing_settles. unfold_M. split.
  - intros Hsettles Hcause.
    destruct (jose_importPKCS8 o); cbn; [|reflexivity].
    destruct (Hsettles eq_refl) as (jwt & Hjwt). rewrite Hjwt. cbn.
    destruct Hcause as [H|[(jwt' & E & Hfalsy)|Htok]].
    + discriminate H.
    + rewrite Hjwt in E. injection E as <-. rewrite Hfalsy. reflexivity.
    + rewrite Htok, orb_true_r. reflexivity.
  - intros -> ->. reflexivity.
Qed.

Lemma apple_without_token_witness :
  getAppleMusicData sample_env "" (sample_oracle (frozen t0)) (world_remembering ∅) =
  (Ok (failure "2024-01-01T00:00:00.000Z" "Could not generate Apple Developer Token."),
   tick (world_remembering ∅)).
Proof.
  refine (proj1 (apple_without_token sample_env "" (sample_oracle (frozen t0))
                   (world_remembering ∅)) _ _).
  - intros _. eexists. reflexivity.
  - right. right. reflexivity.
Defined.

(** X14. With both tokens, everything that goes wrong before the liveness
    decision becomes a failure answer stamped with the current time, and
    the state cache is not written: a status above 204 or a missing body
    gives the status message; a rejected request, a body that is no JSON,
    an empty list of tracks and an unreadable state cache all give the
    message that asks whether the user token is valid. *)
Theorem apple_upstream_failures env tok o w :
  apple_authorized o tok ->
  let run := getAppleMusicData env tok o w in
  let now := Date.iso (clock o (ticks w)) in
  ((apple_endpoint o = Rejected \/
    (exists response,
        apple_endpoint o = Resolved response /\
        status response <= HTTP_NO_CONTENT /\ has_body response = true /\
        (json_body response = None \/
         json_body response = Some (Apple.mkRecent []) \/
         state_get_ok o = false))) ->
   fst run = Ok (failure now APPLE_GENERIC_ERROR)) /\
  (forall response,
     apple_endpoint o = Resolved response ->
     HTTP_NO_CONTENT < status response \/ has_body response = false ->
     fst run =
     Ok (failure now ("Failed to fetch from Apple Music. Status: " +:+
                      JS.string_of_Z (status response) +:+ " " +:+ statusText response))) /\
  ((forall song, ~ apple_serves o tok song) ->
   APPLE_STATE_CACHE (snd run) = APPLE_STATE_CACHE w /\
   state_writes (trace (snd run)) = state_writes (trace w)).
Proof.
  intros (Himp & (jwt & Hsign & Hjwt) & Htok) run now.
  assert (Hrun : run =
    try_catch
      (let* answer := ask apple_endpoint in
       let* response := global_fetch APPLE_RECENTLY_PLAYED_ENDPOINT answer in
       if (HTTP_NO_CONTENT <? status response) || negb (has_body response) then
         failed ("Failed to fetch from Apple Music. Status: " +:+
                 JS.string_of_Z (status response) +:+ " " +:+ statusText response)
       else
         let* body := json response in
         let* lastSong := first (Apple.data body) in
         let* cachedState := APPLE_STATE_CACHE_get APPLE_SONG_CACHE_KEY in
         ret (failure "" ""))
      (fun _ => failed APPLE_GENERIC_ERROR) o w \/
    exists song, apple_serves o tok song).
  { unfold run, getAppleMusicData, getAppleDeveloperToken. unfold_M.
    rewrite Himp, Hsign. cbn. rewrite Hjwt, Htok. cbn.
    destruct (apple_endpoint o) as [|response] eqn:Hresp; cbn; [left; reflexivity|].
    destruct (Z.ltb_spec HTTP_NO_CONTENT (status response)); cbn; [left; reflexivity|].
    destruct (has_body response) eqn:Hbody; cbn; [|left; reflexivity].
    destruct (json_body response) as [[songs]|] eqn:Hjson; cbn; [|left; reflexivity].
    destruct songs as [|song rest]; cbn; [left; reflexivity|].
    destruct (state_get_ok o) eqn:Hget; cbn; [|left; reflexivity].
    right. exists song. unfold apple_serves. rewrite Hresp. eauto 15. }
  split; [|split].
  - intros Hcause.
    destruct Hrun as [->|(song & _ & _ & _ & (resp & rest & Hresp & _ & _ & Hjson) & Hget)].
    + unfold_M. destruct Hcause as [->|(response & -> & Hst & Hbody & Hcause)];
        [reflexivity|]. cbn.
      replace (HTTP_NO_CONTENT <? status response) with false
        by (symmetry; apply Z.ltb_ge; exact Hst).
      rewrite Hbody. cbn. destruct Hcause as [->|[->|Hget]]; [reflexivity|reflexivity|].
      destruct (json_body response) as [[[|song rest]]|]; cbn; try reflexivity.
      rewrite Hget. reflexivity.
    + exfalso. destruct Hcause as [E|(response & E & _ & _ & Hcause)];
        rewrite Hresp in E; [discriminate E|]. injection E as <-.
      destruct Hcause as [E|[E|E]]; congruence.
  - intros response Hresp Hcause.
    destruct Hrun as [->|(song & _ & _ & _ & (resp & rest & Hresp' & Hst & Hbody & _) & _)].
    + unfold_M. rewrite Hresp. cbn.
      replace ((HTTP_NO_CONTENT <? status response) || negb (has_body response)) with true;
        [reflexivity|].
      symmetry. apply orb_true_iff. destruct Hcause as [H|H];
        [left; apply Z.ltb_lt; exact H|right; rewrite H; reflexivity].
    + exfalso. rewrite Hresp in Hresp'. injection Hresp' as <-.
      destruct Hcause as [H|H]; [lia|congruence].
  - intros Hnot. destruct Hrun as [->|(song & Hserves)]; [|exfalso; exact (Hnot song Hserves)].
    unfold_M. unfold APPLE_STATE_CACHE_get.
    destruct (apple_endpoint o) as [|response]; cbn;
      [rewrite state_writes_app, app_nil_r; auto|].
    destruct ((HTTP_NO_CONTENT <? status response) || negb (has_body response)); cbn;
      [rewrite state_writes_app, app_nil_r; auto|].
    destruct (json_body response) as [[[|song rest]]|]; cbn;
      try (rewrite state_writes_app, app_nil_r; auto).
    destruct (state_get_ok o); cbn; rewrite !state_writes_app, !app_nil_r; auto.
Qed.

(** Apple Music answers with an empty list of tracks. *)
Lemma apple_upstream_failures_witness :
  let o := with_apple_endpoint (answer 200 "OK" (Some (Apple.mkRecent [])))
             (sample_oracle (frozen t0)) in
  fst (getAppleMusicData sample_env "user-token" o (world_remembering remembers_T1)) =
  Ok (failure "2024-01-01T00:00:00.000Z" APPLE_GENERIC_ERROR).
Proof.
  intros o.
  refine (proj1 (apple_upstream_failures sample_env "user-token" o
                   (world_remembering remembers_T1) _) _).
  - split; [reflexivity|]. split; [|reflexivity]. eexists. split; reflexivity.
  - right. eexists. split; [reflexivity|]. split; [cbn; unfold HTTP_NO_CONTENT; lia|].
    split; [reflexivity|]. right. left. reflexivity.
Defined.

(* ===================================================================== *)
(** ** Liveness inference over successive polls *)
(* ===================================================================== *)

(** X15. A new track whose state write fails: the adapter answers with a
    failure (the track is not reported at all), the write was attempted
    and the state cache is as before, so the next poll meets the same
    track as a new one again. *)
Theorem new_track_write_fails env tok o w song :
  apple_serves o tok song ->
  (forall st, APPLE_STATE_CACHE w !! APPLE_SONG_CACHE_KEY = Some st ->
              songId st <> Apple.id song) ->
  state_put_ok o = false ->
  let run := getAppleMusicData env tok o w in
  let attempted := {| songId := Apple.id song; cachedAt := clock o (S (ticks w)) |} in
  fst run = Ok (failure (Date.iso (clock o (S (S (ticks w))))) APPLE_GENERIC_ERROR) /\
  APPLE_STATE_CACHE (snd run) = APPLE_STATE_CACHE w /\
  state_writes (trace (snd run)) =
    state_writes (trace w) ++ [(APPLE_SONG_CACHE_KEY, attempted)].
Proof.
  intros Hserves Hnew Hput run attempted. unfold run.
  rewrite (apple_reaches_decision _ _ _ _ _ Hserves). unfold_M. cbn.
  assert (Hgo : forall (k : M ApiResponse) o' w',
    match APPLE_STATE_CACHE w !! APPLE_SONG_CACHE_KEY with
    | Some cached =>
        if String.eqb (songId cached) (Apple.id song)
        then (if cachedAt cached >? clock o (ticks w) - Apple.durationInMillis song
              then (fun _ w0 => (formatAppleSong song true (cachedAt cached), w0))
              else (fun _ w0 => (formatAppleSong song false (cachedAt cached), tick w0)))
        else k
    | None => k
    end o' w' = k o' w').
  { intros k o' w'. destruct (APPLE_STATE_CACHE w !! APPLE_SONG_CACHE_KEY) as [st|] eqn:E;
      [|reflexivity].
    destruct (String.eqb_spec (songId st) (Apple.id song)) as [Heq|Hne]; [|reflexivity].
    exfalso. exact (Hnew st eq_refl Heq). }
  rewrite Hgo, Hput. cbn. split; [reflexivity|]. split; [reflexivity|].
  rewrite !state_writes_app. cbn. rewrite !app_nil_r. reflexivity.
Qed.

Lemma new_track_write_fails_witness :
  let o := with_state_put_failing (sample_oracle (ticking 1000)) in
  let run := getAppleMusicData sample_env "user-token" o (world_remembering ∅) in
  fst run = Ok (failure (Date.iso 1002) APPLE_GENERIC_ERROR) /\
  APPLE_STATE_CACHE (snd run) = ∅ /\
  state_writes (trace (snd run)) =
    [(APPLE_SONG_CACHE_KEY, {| songId := "T1"; cachedAt := 1001 |})].
Proof.
  intros o run.
  refine (new_track_write_fails sample_env "user-token" o (world_remembering ∅) song_T1
            _ _ eq_refl).
  - unfold apple_serves. cbn. repeat split; try reflexivity.
    + exists "developer-jwt". split; reflexivity.
    + eexists _, []. repeat split; try reflexivity. cbn. unfold HTTP_NO_CONTENT. lia.
  - intros st Hst. vm_compute in Hst. discriminate Hst.
Defined.

(** X16. The poll after a new track was detected, serving the same track:
    the answer is stamped with the time that was written to the state
    cache, i.e. the clock reading taken before the write, not the later
    reading the first answer was stamped with; it says playing exactly
    while that time is within one duration of the second poll's now, and
    the state cache is not written again. *)
Theorem second_poll_reports_stored_time env tok o1 o2 w song :
  apple_serves o1 tok song ->
  apple_serves o2 tok song ->
  (forall st, APPLE_STATE_CACHE w !! APPLE_SONG_CACHE_KEY = Some st ->
              songId st <> Apple.id song) ->
  state_put_ok o1 = true ->
  Date.valid_time (clock o1 (S (ticks w))) ->
  Date.valid_time (clock o1 (S (S (ticks w)))) ->
  let run1 := getAppleMusicData env tok o1 w in
  let run2 := getAppleMusicData env tok o2 (snd run1) in
  let stored := clock o1 (S (ticks w)) in
  exists r1 r2,
    fst run1 = Ok r1 /\ timeStamp r1 = Date.iso (clock o1 (S (S (ticks w)))) /\
    fst run2 = Ok r2 /\ timeStamp r2 = Date.iso stored /\
    (isPlaying r2 = true <->
     clock o2 (S (S (S (ticks w)))) - Apple.durationInMillis song < stored) /\
    APPLE_STATE_CACHE (snd run2) = APPLE_STATE_CACHE (snd run1) /\
    state_writes (trace (snd run2)) = state_writes (trace (snd run1)).
Proof.
  intros Hs1 Hs2 Hnew Hput Hv1 Hv2 run1 run2 stored.
  destruct (apple_new_track_run env tok o1 w song Hs1 Hnew Hput Hv2) as (r1 & Hr1 & Hrun1).
  destruct (formatAppleSong_valid song true _ Hv2) as (r1' & Hr1' & _ & _ & Hstamp1).
  rewrite Hr1 in Hr1'. injection Hr1' as <-.
  set (st := {| songId := Apple.id song; cachedAt := stored |}).
  assert (Hlook : APPLE_STATE_CACHE (snd run1) !! APPLE_SONG_CACHE_KEY = Some st).
  { unfold run1. rewrite Hrun1. cbn. apply lookup_insert_eq. }
  assert (Hticks : ticks (snd run1) = S (S (S (ticks w))))
    by (unfold run1; rewrite Hrun1; reflexivity).
  destruct (apple_same_track_run env tok o2 (snd run1) song st Hs2 Hlook eq_refl Hv1)
    as (r2 & Hr2 & Hrun2).
  destruct (formatAppleSong_valid song
              (cachedAt st >? clock o2 (ticks (snd run1)) - Apple.durationInMillis song)
              _ Hv1) as (r2' & Hr2' & _ & Hlive & Hstamp2).
  pose proof (eq_trans (eq_sym Hr2) Hr2') as E. injection E as <-.
  exists r1, r2. split; [unfold run1; rewrite Hrun1; reflexivity|].
  split; [exact Hstamp1|]. split; [unfold run2; rewrite Hrun2; reflexivity|].
  split; [exact Hstamp2|]. split.
  { rewrite Hlive, Hticks. cbn [cachedAt st]. rewrite Z.gtb_ltb. apply Z.ltb_lt. }
  unfold run2. rewrite Hrun2.
  destruct (cachedAt st >? _); cbn; rewrite !state_writes_app; cbn;
    rewrite !app_nil_r; auto.
Qed.

(** A new track at a clock that advances by a millisecond per reading,
    then a poll 100 seconds later: the first answer is stamped 1002, the
    second 1001. *)
Lemma second_poll_reports_stored_time_witness :
  let o1 := sample_oracle (ticking 1000) in
  let o2 := sample_oracle (frozen 101000) in
  let run1 := getAppleMusicData sample_env "user-token" o1 (world_remembering ∅) in
  let run2 := getAppleMusicData sample_env "user-token" o2 (snd run1) in
  exists r1 r2,
    fst run1 = Ok r1 /\ timeStamp r1 = Date.iso 1002 /\
    fst run2 = Ok r2 /\ timeStamp r2 = Date.iso 1001 /\
    (isPlaying r2 = true <-> 101000 - 200000 < 1001) /\
    APPLE_STATE_CACHE (snd run2) = APPLE_STATE_CACHE (snd run1) /\
    state_writes (trace (snd run2)) = state_writes (trace (snd run1)).
Proof.
  intros o1 o2 run1 run2.
  refine (second_poll_reports_stored_time sample_env "user-token" o1 o2
            (world_remembering ∅) song_T1 _ _ _ eq_refl _ _).
  - apply sample_oracle_serves.
  - apply sample_oracle_serves.
  - intros st Hst. vm_compute in Hst. discriminate Hst.
  - unfold Date.valid_time. cbn. unfold Date.maxTime, ticking. lia.
  - unfold Date.valid_time. cbn. unfold Date.maxTime, ticking. lia.
Defined.

(** X20. Once a remembered track is past its window it stays so: if a poll
    finds the remembered track not playing, every later poll that is
    served the same track, at a time that is no earlier, finds it not
    playing either, with the same time stamp; a replay of the same track
    is not noticed. *)
Theorem stale_stays_stale env tok o1 o2 w song st r1 :
  apple_serves o1 tok song ->
  apple_serves o2 tok song ->
  APPLE_STATE_CACHE w !! APPLE_SONG_CACHE_KEY = Some st ->
  songId st = Apple.id song ->
  Date.valid_time (cachedAt st) ->
  let run1 := getAppleMusicData env tok o1 w in
  let run2 := getAppleMusicData env tok o2 (snd run1) in
  fst run1 = Ok r1 ->
  isPlaying r1 = false ->
  clock o1 (ticks w) <= clock o2 (ticks (snd run1)) ->
  fst run2 = Ok r1.
Proof.
  intros Hs1 Hs2 Hlook Hid Hvalid run1 run2 Hr1 Hstale Hlater.
  destruct (apple_same_track_run env tok o1 w song st Hs1 Hlook Hid Hvalid)
    as (r & Hr & Hrun1).
  destruct (formatAppleSong_valid song
              (cachedAt st >? clock o1 (ticks w) - Apple.durationInMillis song)
              _ Hvalid) as (r' & Hr' & _ & Hlive & _).
  pose proof (eq_trans (eq_sym Hr) Hr') as E. injection E as <-.
  unfold run1 in Hr1. rewrite Hrun1 in Hr1. cbn in Hr1. injection Hr1 as ->.
  rewrite Hstale in Hlive. symmetry in Hlive.
  assert (Hmem1 : APPLE_STATE_CACHE (snd run1) !! APPLE_SONG_CACHE_KEY = Some st).
  { unfold run1. rewrite Hrun1. cbn. rewrite Hlive. exact Hlook. }
  destruct (apple_same_track_run env tok o2 (snd run1) song st Hs2 Hmem1 Hid Hvalid)
    as (r2 & Hr2 & Hrun2).
  assert (Hlive2 : (cachedAt st >? clock o2 (ticks (snd run1)) - Apple.durationInMillis song)
                   = false).
  { rewrite Z.gtb_ltb in *. apply Z.ltb_ge. apply Z.ltb_ge in Hlive. lia. }
  unfold run2. rewrite Hrun2. cbn [fst]. rewrite Hlive2 in Hr2. rewrite Hlive in Hr.
  congruence.
Qed.

(** The "past window" sample polled again ten minutes later. *)
Lemma stale_stays_stale_witness :
  let o1 := sample_oracle (frozen (t0 + 300000)) in
  let o2 := sample_oracle (frozen (t0 + 900000)) in
  let run1 := getAppleMusicData sample_env "user-token" o1 (world_remembering remembers_T1) in
  exists r1,
    fst run1 = Ok r1 /\ isPlaying r1 = false /\
    fst (getAppleMusicData sample_env "user-token" o2 (snd run1)) = Ok r1.
Proof.
  intros o1 o2 run1.
  destruct (fst run1) as [r1|e] eqn:Hr1; [|vm_compute in Hr1; discriminate Hr1].
  assert (Hstale : isPlaying r1 = false)
    by (vm_compute in Hr1; injection Hr1 as <-; reflexivity).
  exists r1. split; [reflexivity|]. split; [exact Hstale|].
  refine (stale_stays_stale sample_env "user-token" o1 o2 (world_remembering remembers_T1)
            song_T1 {| songId := "T1"; cachedAt := t0 |} r1 _ _ eq_refl eq_refl _ Hr1
            Hstale _).
  - apply sample_oracle_serves.
  - apply sample_oracle_serves.
  - unfold Date.valid_time. cbn. unfold Date.maxTime, t0. lia.
  - cbn. unfold frozen. lia.
Defined.

(** Every run reads the clock forwards and writes at most one state, which
    carries the clock reading that follows the one taken for the window. *)
Lemma getAppleMusicData_writes env tok o w :
  let w' := snd (getAppleMusicData env tok o w) in
  (ticks w <= ticks w')%nat /\
  (state_writes (trace w') = state_writes (trace w) \/
   exists id,
     (ticks w + 2 <= ticks w')%nat /\
     state_writes (trace w') =
       state_writes (trace w) ++
       [(APPLE_SONG_CACHE_KEY, {| songId := id; cachedAt := clock o (S (ticks w)) |})]).
Proof.
  unfold getAppleMusicData, getAppleDeveloperToken, formatAppleSong. unfold_M.
  paths; (split; [lia|]); rewrite ?state_writes_app; cbn; rewrite ?app_nil_r;
    first [left; reflexivity | right; eexists; split; [lia|reflexivity]].
Qed.

(** X17. The times written to the state cache never go back: when two
    successive runs of the Apple Music adapter each write a state, on a
    clock that does not run backwards, the second state's time is no
    earlier than the first's; each is the clock reading that follows the
    one its run took for the window. *)
Theorem stored_times_monotone env tok1 tok2 o1 o2 w s1 s2 :
  clock_monotone o1 ->
  (forall n, clock o2 n = clock o1 n) ->
  let w1 := snd (getAppleMusicData env tok1 o1 w) in
  let w2 := snd (getAppleMusicData env tok2 o2 w1) in
  state_writes (trace w1) = state_writes (trace w) ++ [(APPLE_SONG_CACHE_KEY, s1)] ->
  state_writes (trace w2) = state_writes (trace w1) ++ [(APPLE_SONG_CACHE_KEY, s2)] ->
  cachedAt s1 = clock o1 (S (ticks w)) /\
  cachedAt s2 = clock o1 (S (ticks w1)) /\
  cachedAt s1 <= cachedAt s2.
Proof.
  intros Hmono Hsame w1 w2 H1 H2.
  destruct (getAppleMusicData_writes env tok1 o1 w) as (_ & [E1|(id1 & Hticks & E1)]);
    fold w1 in E1.
  { rewrite E1 in H1. apply (f_equal (@length _)) in H1. rewrite length_app in H1.
    cbn in H1. lia. }
  destruct (getAppleMusicData_writes env tok2 o2 w1) as (_ & [E2|(id2 & _ & E2)]);
    fold w2 in E2.
  { rewrite E2 in H2. apply (f_equal (@length _)) in H2. rewrite length_app in H2.
    cbn in H2. lia. }
  fold w1 in Hticks.
  rewrite E1 in H1. apply app_inv_head in H1. injection H1 as <-.
  rewrite E2 in H2. apply app_inv_head in H2. injection H2 as <-.
  cbn. rewrite Hsame. repeat split. apply Hmono. lia.
Qed.

(** Track T1 is detected and then track T2, on a clock that advances by a
    millisecond per reading: the states are written with 1001 and 1004. *)
Lemma stored_times_monotone_witness :
  let o1 := sample_oracle (ticking 1000) in
  let o2 := with_apple_endpoint (answer 200 "OK" (Some (Apple.mkRecent [song_T2]))) o1 in
  let s1 := {| songId := "T1"; cachedAt := 1001 |} in
  let s2 := {| songId := "T2"; cachedAt := 1004 |} in
  cachedAt s1 = clock o1 1 /\ cachedAt s2 = clock o1 4 /\ cachedAt s1 <= cachedAt s2.
Proof.
  intros o1 o2 s1 s2.
  refine (stored_times_monotone sample_env "user-token" "user-token" o1 o2
            (world_remembering ∅) s1 s2 _ _ _ _).
  - intros m n Hmn. cbn. unfold ticking. lia.
  - intros n. reflexivity.
  - vm_compute. reflexivity.
  - vm_compute. reflexivity.
Defined.

(* ===================================================================== *)
(** ** The artwork URL *)
(* ===================================================================== *)

Lemma prefix_append pat rest : String.prefix pat (pat +:+ rest) = true.
Proof.
  induction pat as [|c pat IH]; [destruct rest; reflexivity|].
  change (String c pat +:+ rest) with (String c (pat +:+ rest)). cbn.
  destruct (ascii_dec c c); [exact IH|contradiction].
Qed.

Lemma drop_append pat rest : JS.drop (String.length pat) (pat +:+ rest) = rest.
Proof.
  induction pat as [|c pat IH]; [destruct rest; reflexivity|].
  change (String c pat +:+ rest) with (String c (pat +:+ rest)). cbn. exact IH.
Qed.

Lemma free_of_append c s1 s2 : free_of c s1 -> free_of c s2 -> free_of c (s1 +:+ s2).
Proof.
  induction s1 as [|c1 s1 IH]; [intros _ H; exact H|].
  intros [Hc H1] H2. change (String c1 s1 +:+ s2) with (String c1 (s1 +:+ s2)).
  split; [exact Hc|exact (IH H1 H2)].
Qed.

Lemma replace_unfold pat rep s :
  JS.replace pat rep s =
  if String.prefix pat s then rep +:+ JS.drop (String.length pat) s
  else match s with
       | EmptyString => EmptyString
       | String c r => String c (JS.replace pat rep r)
       end.
Proof. destruct s; reflexivity. Qed.

(** The first occurrence of a pattern that starts with [c], after a text
    free of [c], is the one replaced. *)
Lemma replace_after_free c pat rep pre rest :
  free_of c pre ->
  JS.replace (String c pat) rep (pre +:+ String c pat +:+ rest) = pre +:+ rep +:+ rest.
Proof.
  intros Hfree. induction pre as [|c1 pre IH].
  - change ("" +:+ String c pat +:+ rest) with (String c pat +:+ rest).
    change ("" +:+ rep +:+ rest) with (rep +:+ rest).
    pose proof (prefix_append (String c pat) rest) as Hp.
    pose proof (drop_append (String c pat) rest) as Hd.
    destruct (String c pat +:+ rest) as [|c2 s] eqn:E; [discriminate Hp|].
    rewrite replace_unfold, Hp, Hd. reflexivity.
  - destruct Hfree as [Hc Hfree].
    change (String c1 pre +:+ String c pat +:+ rest)
      with (String c1 (pre +:+ String c pat +:+ rest)).
    change (String c1 pre +:+ rep +:+ rest) with (String c1 (pre +:+ rep +:+ rest)).
    rewrite replace_unfold. cbn [String.prefix].
    destruct (ascii_dec c c1) as [E|_]; [symmetry in E; contradiction|].
    rewrite (IH Hfree). reflexivity.
Qed.

(** A text free of [c] holds no pattern that starts with [c]. *)
Lemma replace_absent c pat rep s : free_of c s -> JS.replace (String c pat) rep s = s.
Proof.
  induction s as [|c1 s IH]; [reflexivity|]. intros [Hc Hfree].
  rewrite replace_unfold. cbn [String.prefix].
  destruct (ascii_dec c c1) as [E|_]; [symmetry in E; contradiction|].
  rewrite (IH Hfree). reflexivity.
Qed.

Lemma append_assoc s1 s2 s3 : (s1 +:+ s2) +:+ s3 = s1 +:+ s2 +:+ s3.
Proof.
  induction s1 as [|c s1 IH]; [reflexivity|].
  change ((String c s1 +:+ s2) +:+ s3) with (String c ((s1 +:+ s2) +:+ s3)).
  rewrite IH. reflexivity.
Qed.

(** X18. The artwork URL of an Apple Music answer: a template whose first
    brace opens [{w}x{h}] has both placeholders replaced by 500, and a URL
    without a brace is passed on unchanged. *)
Theorem artwork_is_sized song isLive timestamp r :
  formatAppleSong song isLive timestamp = Ok r ->
  (forall pre post,
     Apple.artwork_url song = pre +:+ "{w}x{h}" +:+ post ->
     free_of "{" pre ->
     albumImageUrl r = Some (pre +:+ "500x500" +:+ post)) /\
  (free_of "{" (Apple.artwork_url song) -> albumImageUrl r = Some (Apple.artwork_url song)).
Proof.
  unfold formatAppleSong. destruct (Date.toISOString _); [|discriminate].
  intros E. injection E as <-. cbn [albumImageUrl].
  unfold ALBUM_IMAGE_WIDTH, ALBUM_IMAGE_HEIGHT. split.
  - intros pre post -> Hfree. f_equal.
    change (pre +:+ "{w}x{h}" +:+ post) with (pre +:+ "{w}" +:+ ("x{h}" +:+ post)).
    rewrite (replace_after_free "{" "w}" "500" pre ("x{h}" +:+ post) Hfree).
    change (pre +:+ "500" +:+ "x{h}" +:+ post)
      with (pre +:+ "500x" +:+ "{h}" +:+ post).
    rewrite <- (append_assoc pre "500x" ("{h}" +:+ post)).
    rewrite (replace_after_free "{" "h}" "500" (pre +:+ "500x") post).
    + rewrite append_assoc. reflexivity.
    + apply free_of_append; [exact Hfree|]. cbn. repeat split; discriminate.
  - intros Hfree. f_equal. rewrite (replace_absent "{" "w}" "500" _ Hfree).
    apply replace_absent. exact Hfree.
Qed.

Lemma artwork_is_sized_witness :
  exists r,
    formatAppleSong song_T1 true t0 = Ok r /\
    albumImageUrl r = Some "https://img.example/500x500.jpg".
Proof.
  destruct (formatAppleSong song_T1 true t0) as [r|e] eqn:Hr;
    [|vm_compute in Hr; discriminate Hr].
  exists r. split; [reflexivity|].
  refine (proj1 (artwork_is_sized song_T1 true t0 r Hr) "https://img.example/" ".jpg" eq_refl _).
  cbn. repeat split; discriminate.
Defined.

(* ===================================================================== *)
(** ** Time stamps of fresh replies *)
(* ===================================================================== *)

(** X19. On a clock whose readings are time values, the time stamp of
    every fresh reply (marked MISS) is what [toISOString] prints for some
    time value, and it reads back as that value: a fresh reply never
    carries an empty or invalid date. *)
Theorem fresh_reply_dated request env o w reply w' :
  clock_valid o ->
  fetch request env o w = (Ok reply, w') ->
  X_Cache_Status reply = "MISS" ->
  exists t, Date.valid_time t /\ timeStamp (body reply) = Date.iso t /\
            getTime (timeStamp (body reply)) = JS.Num t.
Proof.
  intros Hclock Hrun Hmiss.
  destruct (fetch_miss _ _ _ _ _ _ Hrun Hmiss)
    as (spotify & apple & w0 & w1 & w2 & _ & Hs & Ha & Hbody & _).
  destruct (getSpotifyData_dated env o w0 spotify w1 Hs Hclock) as (ts & Hts & Es).
  destruct (getAppleMusicData_dated env _ o w1 apple w2 Ha Hclock) as (ta & Hta & Ea).
  assert (Hone : body reply = spotify \/ body reply = apple).
  { rewrite Hbody. unfold responseData.
    destruct (isPlaying spotify); [auto|]. destruct (isPlaying apple); [auto|].
    destruct (JS.geb _ _); auto. }
  destruct Hone as [->| ->]; [exists ts|exists ta];
    (split; [assumption|]); (split; [assumption|]).
  - rewrite Es. apply getTime_iso. exact Hts.
  - rewrite Ea. apply getTime_iso. exact Hta.
Qed.

Lemma fresh_reply_dated_witness :
  exists reply w',
    fetch (mkRequest None) sample_env (sample_oracle (frozen t0)) (world_remembering ∅)
      = (Ok reply, w') /\
    exists t, Date.valid_time t /\ timeStamp (body reply) = Date.iso t /\
              getTime (timeStamp (body reply)) = JS.Num t.
Proof.
  destruct (fetch (mkRequest None) sample_env (sample_oracle (frozen t0))
              (world_remembering ∅)) as [[reply|e] w'] eqn:Hrun;
    [|vm_compute in Hrun; discriminate Hrun].
  exists reply, w'. split; [reflexivity|].
  assert (Hmiss : X_Cache_Status reply = "MISS")
    by (vm_compute in Hrun; injection Hrun as <- <-; reflexivity).
  refine (fresh_reply_dated _ _ _ _ _ _ _ Hrun Hmiss).
  intros n. unfold Date.valid_time. cbn. unfold Date.maxTime, frozen, t0. lia.
Defined.
